(** * Browser Discord client: the polling manager

    A model of [packages/client-browser-discord/src/index.ts]: the class
    [BrowserDiscordManager] with its agent registry, room states, interval
    timers and handler set, and its methods [pollMessages],
    [handleNewMessages], [setActiveChannel], [sendMessage] and [cleanup].

    The methods are written once, in source order, in a small resumption
    monad [Proc]: a [Sync] node is a synchronous access to the manager or to
    the host (timers, logger, clock), an [Await] node is an [await] of the
    source.  Two semantics are given.  [run] executes one call to completion
    against an environment that answers the awaited calls.  [perform]
    interleaves the calls in flight at their [await] points, as the
    single-threaded event loop does.

    [DiscordRoomState] objects live in a heap and the room-state map holds
    references to them: a method keeps the reference it read before an
    [await] and writes through it afterwards, whether or not the map still
    holds that object.

    Handlers, the REST client, [fetch], the memory store, [stringToUuid] and
    the clock are collaborators: handlers are known by identity and by what
    the environment answers when they are awaited.  The REST client keeps
    the token it is given to itself: [this.rest.token], which [pollMessages]
    reads, is [undefined].

    The loop of [handleNewMessages] over the handler set takes the handlers
    as they are when the loop begins, for each message.  The source iterates
    over the live set, across the [await] of each handler; the two agree as
    long as the set does not change while a batch is dispatched, which is
    the case in [run].  What is stated about the dispatch of a batch is
    stated for [run], or for the part of a tick up to its first handler
    call. *)

From stdpp Require Import base strings gmap list.
From Stdlib Require Import ZArith Lia.

Local Open Scope string_scope.
Local Open Scope list_scope.

(** ** Data model *)

(** [APIMessage] of discord-api-types: the manager reads [id] and
    [author.bot]; the rest is passed through to the handlers. *)
Record APIMessage := {
  msg_id : string;
  msg_author_bot : bool;
  msg_content : string
}.

(** [Content] of the agent runtime: the text and the optional reply target. *)
Record Content := {
  text : string;
  inReplyTo : option string
}.

(** The [content] field of a [Memory]. *)
Record MemoryContent := {
  mc_text : string;
  mc_source : string;
  mc_inReplyTo : option string
}.

Record Memory := {
  mem_id : string;
  mem_agentId : string;
  mem_userId : string;
  mem_roomId : string;
  mem_content : MemoryContent;
  mem_createdAt : Z
}.

(** The part of [IAgentRuntime] the manager reads: the agent identifier and
    the two places the constructor looks for the token. *)
Record IAgentRuntime := {
  agentId : string;
  secrets_discord_token : option string;
  runtime_token : option string
}.

(** Handles returned by [setInterval] are positive integers (a truthy
    object under Node). *)
Definition timer := positive.

(** References to [DiscordRoomState] objects. *)
Definition loc := nat.

Record DiscordRoomState := {
  channelId : string;
  lastMessageId : option string;
  voiceConnection : option unit;
  pollingInterval : option timer
}.

(** A [MessageHandler] is a closure; the model keeps its identity. *)
Definition MessageHandler := nat.

(** Body of the POST request of [sendMessage]. *)
Record PostBody := {
  body_content : string;
  body_message_reference : option string
}.

(** A thrown value. *)
Inductive JsError := Error (message : string).

Inductive Res (A : Type) : Type :=
| Ok (a : A)
| Throw (e : JsError).
Arguments Ok {A} a.
Arguments Throw {A} e.

(** The awaited calls to the collaborators, indexed by the type of the value
    they resolve to.  [Fetch] stands for [fetch] followed by
    [response.json()]; a body that is not a list of messages has no
    positive [length] and is read as the empty list. *)
Inductive Call : Set -> Type :=
| Fetch (url : string) (headers : list (string * string)) : Call (list APIMessage)
| RestGet (route : string) (limit : nat) : Call (list APIMessage)
| RestPost (route : string) (body : PostBody) : Call APIMessage
| CreateMemory (agent : string) (memory : Memory) : Call unit
| Handler (handler : MessageHandler) (message : APIMessage) : Call unit.

(** What an observer sees: the calls issued, the logger entries and the
    timer operations. *)
Inductive Event :=
| EvCall {X : Set} (c : Call X)
| EvLog (msg : string)
| EvError (msg : string) (e : JsError)
| EvSetInterval (t : timer) (key : string)
| EvClearInterval (t : timer).

(** The manager's fields ([rest_token] is the token handed to the REST
    client), then the host: the objects the map and the
    closures refer to, the active interval timers (handle to the room key
    its callback polls and its period), the clock and the trace. *)
Record St := {
  rest_token : string;
  agents : gmap string IAgentRuntime;
  roomStates : gmap string loc;
  messageHandlers : list MessageHandler;
  currentDMChannel : option string;
  heap : gmap loc DiscordRoomState;
  nextLoc : loc;
  timers : gmap timer (string * Z);
  nextTimer : timer;
  clock : Z;
  trace : list Event
}.

Definition POLLING_INTERVAL : Z := 2000.

(** ** Field updates *)

Definition set_rest_token (v : string) (s : St) : St :=
  {| rest_token := v; agents := agents s; roomStates := roomStates s;
     messageHandlers := messageHandlers s; currentDMChannel := currentDMChannel s;
     heap := heap s; nextLoc := nextLoc s; timers := timers s;
     nextTimer := nextTimer s; clock := clock s; trace := trace s |}.

Definition upd_agents (f : gmap string IAgentRuntime -> gmap string IAgentRuntime) (s : St) : St :=
  {| rest_token := rest_token s; agents := f (agents s); roomStates := roomStates s;
     messageHandlers := messageHandlers s; currentDMChannel := currentDMChannel s;
     heap := heap s; nextLoc := nextLoc s; timers := timers s;
     nextTimer := nextTimer s; clock := clock s; trace := trace s |}.

Definition upd_roomStates (f : gmap string loc -> gmap string loc) (s : St) : St :=
  {| rest_token := rest_token s; agents := agents s; roomStates := f (roomStates s);
     messageHandlers := messageHandlers s; currentDMChannel := currentDMChannel s;
     heap := heap s; nextLoc := nextLoc s; timers := timers s;
     nextTimer := nextTimer s; clock := clock s; trace := trace s |}.

Definition upd_messageHandlers (f : list MessageHandler -> list MessageHandler) (s : St) : St :=
  {| rest_token := rest_token s; agents := agents s; roomStates := roomStates s;
     messageHandlers := f (messageHandlers s); currentDMChannel := currentDMChannel s;
     heap := heap s; nextLoc := nextLoc s; timers := timers s;
     nextTimer := nextTimer s; clock := clock s; trace := trace s |}.

Definition set_currentDMChannel (v : option string) (s : St) : St :=
  {| rest_token := rest_token s; agents := agents s; roomStates := roomStates s;
     messageHandlers := messageHandlers s; currentDMChannel := v;
     heap := heap s; nextLoc := nextLoc s; timers := timers s;
     nextTimer := nextTimer s; clock := clock s; trace := trace s |}.

Definition upd_heap (f : gmap loc DiscordRoomState -> gmap loc DiscordRoomState) (s : St) : St :=
  {| rest_token := rest_token s; agents := agents s; roomStates := roomStates s;
     messageHandlers := messageHandlers s; currentDMChannel := currentDMChannel s;
     heap := f (heap s); nextLoc := nextLoc s; timers := timers s;
     nextTimer := nextTimer s; clock := clock s; trace := trace s |}.

Definition emits (evs : list Event) (s : St) : St :=
  {| rest_token := rest_token s; agents := agents s; roomStates := roomStates s;
     messageHandlers := messageHandlers s; currentDMChannel := currentDMChannel s;
     heap := heap s; nextLoc := nextLoc s; timers := timers s;
     nextTimer := nextTimer s; clock := clock s; trace := trace s ++ evs |}.

Definition emit (e : Event) (s : St) : St := emits [e] s.

Definition set_clock (now : Z) (s : St) : St :=
  {| rest_token := rest_token s; agents := agents s; roomStates := roomStates s;
     messageHandlers := messageHandlers s; currentDMChannel := currentDMChannel s;
     heap := heap s; nextLoc := nextLoc s; timers := timers s;
     nextTimer := nextTimer s; clock := now; trace := trace s |}.

(** ** The resumption monad *)

Inductive Proc (A : Type) : Type :=
| Ret (a : A)
| Raise (e : JsError)
| Sync {X : Set} (m : St -> X * St) (k : X -> Proc A)
| Await {X : Set} (c : Call X) (k : Res X -> Proc A).
Arguments Ret {A} a.
Arguments Raise {A} e.
Arguments Sync {A X} m k.
Arguments Await {A X} c k.

Fixpoint bind {A B : Type} (p : Proc A) (f : A -> Proc B) : Proc B :=
  match p with
  | Ret a => f a
  | Raise e => Raise e
  | Sync m k => Sync m (fun x => bind (k x) f)
  | Await c k => Await c (fun r => bind (k r) f)
  end.

(** [try { p } catch (error) { h error }] *)
Fixpoint try_catch {A : Type} (p : Proc A) (h : JsError -> Proc A) : Proc A :=
  match p with
  | Ret a => Ret a
  | Raise e => h e
  | Sync m k => Sync m (fun x => try_catch (k x) h)
  | Await c k => Await c (fun r => try_catch (k r) h)
  end.

#[export] Instance proc_ret : MRet Proc := fun A a => Ret a.
#[export] Instance proc_bind : MBind Proc := fun A B f p => bind p f.

Definition get {X : Set} (f : St -> X) : Proc X :=
  Sync (fun s => (f s, s)) Ret.

Definition modify (f : St -> St) : Proc unit :=
  Sync (fun s => (tt, f s)) Ret.

(** [await c]: the value the call resolves to, or its rejection thrown. *)
Definition await {X : Set} (c : Call X) : Proc X :=
  Await c (fun r => match r with Ok x => Ret x | Throw e => Raise e end).

Fixpoint for_each {X : Type} (l : list X) (body : X -> Proc unit) : Proc unit :=
  match l with
  | [] => Ret tt
  | x :: l' => body x;; for_each l' body
  end.

(** ** Host primitives *)

Definition logger_log (msg : string) : Proc unit :=
  modify (emit (EvLog msg)).

Definition logger_error (msg : string) (e : JsError) : Proc unit :=
  modify (emit (EvError msg e)).

(** [setInterval(() => this.pollMessages(key), POLLING_INTERVAL)]: the host
    hands out the next handle and keeps the timer active. *)
Definition install_timer (key : string) (s : St) : St :=
  {| rest_token := rest_token s; agents := agents s; roomStates := roomStates s;
     messageHandlers := messageHandlers s; currentDMChannel := currentDMChannel s;
     heap := heap s; nextLoc := nextLoc s;
     timers := <[nextTimer s := (key, POLLING_INTERVAL)]> (timers s);
     nextTimer := Pos.succ (nextTimer s); clock := clock s;
     trace := trace s ++ [EvSetInterval (nextTimer s) key] |}.

Definition setInterval (key : string) : Proc timer :=
  Sync (fun s => (nextTimer s, install_timer key s)) Ret.

(** [clearInterval(t)] *)
Definition clear_timer (t : timer) (s : St) : St :=
  {| rest_token := rest_token s; agents := agents s; roomStates := roomStates s;
     messageHandlers := messageHandlers s; currentDMChannel := currentDMChannel s;
     heap := heap s; nextLoc := nextLoc s;
     timers := delete t (timers s);
     nextTimer := nextTimer s; clock := clock s;
     trace := trace s ++ [EvClearInterval t] |}.

Definition clearInterval (t : timer) : Proc unit :=
  modify (clear_timer t).

(** A fresh [DiscordRoomState] object. *)
Definition alloc (o : DiscordRoomState) (s : St) : St :=
  {| rest_token := rest_token s; agents := agents s; roomStates := roomStates s;
     messageHandlers := messageHandlers s; currentDMChannel := currentDMChannel s;
     heap := <[nextLoc s := o]> (heap s); nextLoc := S (nextLoc s); timers := timers s;
     nextTimer := nextTimer s; clock := clock s; trace := trace s |}.

Definition new_object (o : DiscordRoomState) : Proc loc :=
  Sync (fun s => (nextLoc s, alloc o s)) Ret.

(** The room state [setActiveChannel] and [startPollingDMs] create. *)
Definition fresh_room (channel : string) : DiscordRoomState :=
  {| channelId := channel; lastMessageId := None;
     voiceConnection := None; pollingInterval := None |}.

Definition set_lastMessageId (v : option string) (o : DiscordRoomState) : DiscordRoomState :=
  {| channelId := channelId o; lastMessageId := v;
     voiceConnection := voiceConnection o; pollingInterval := pollingInterval o |}.

Definition set_pollingInterval (v : option timer) (o : DiscordRoomState) : DiscordRoomState :=
  {| channelId := channelId o; lastMessageId := lastMessageId o;
     voiceConnection := voiceConnection o; pollingInterval := v |}.

(** [state.field = v] on the object at [l]. *)
Definition write (l : loc) (f : DiscordRoomState -> DiscordRoomState) : Proc unit :=
  modify (upd_heap (alter f l)).

(** [state.field] *)
Definition read {X : Set} (l : loc) (f : DiscordRoomState -> X) : Proc (option X) :=
  get (fun s => match heap s !! l with Some o => Some (f o) | None => None end).

(** JavaScript truthiness of a string and of [string | null | undefined]. *)
Definition truthy (x : string) : bool :=
  match x with "" => false | _ => true end.

Definition truthy_opt (x : option string) : bool :=
  match x with Some v => truthy v | None => false end.

(** [a || b] *)
Definition js_or (a b : option string) : option string :=
  if truthy_opt a then a else b.

(** [Routes.channelMessages(channelId)] of discord-api-types. *)
Definition Routes_channelMessages (channelId : string) : string :=
  "/channels/" +:+ channelId +:+ "/messages".

(** ** The methods of [BrowserDiscordManager] *)

Definition registerAgent (runtime : IAgentRuntime) : Proc unit :=
  modify (upd_agents (insert (agentId runtime) runtime)).

Definition startPollingDMs : Proc unit :=
  dm ← get currentDMChannel;
  match dm with
  | Some ch =>
      if truthy ch then
        state ← new_object (fresh_room ch);
        modify (upd_roomStates (insert "dm" state));;
        t ← setInterval "dm";
        write state (set_pollingInterval (Some t))
      else Ret tt
  | None => Ret tt
  end.

Definition initializeDMChannel : Proc unit :=
  try_catch
    (let dmChannel_id := "202880968556544000" in
     modify (set_currentDMChannel (Some dmChannel_id));;
     startPollingDMs)
    (fun error => logger_error "Error initializing DM channel:" error).

Definition addMessageHandler (handler : MessageHandler) : Proc unit :=
  modify (upd_messageHandlers (fun hs =>
    if decide (handler ∈ hs) then hs else hs ++ [handler])).

Definition removeMessageHandler (handler : MessageHandler) : Proc unit :=
  modify (upd_messageHandlers (filter (fun h => h ≠ handler))).

(** The inner loop visits the handlers registered when it begins: the
    iteration of the source over the live set, as long as no handler is
    added or removed while it is suspended at a handler. *)
Definition handleNewMessages (channel : string) (messages : list APIMessage) : Proc unit :=
  for_each messages (fun message =>
    if msg_author_bot message then Ret tt
    else
      handlers ← get messageHandlers;
      for_each handlers (fun handler =>
        try_catch
          (await (Handler handler message))
          (fun error => logger_error "Error in message handler:" error))).

(** The request of a poll tick. *)
Definition poll_url (channel : string) : string :=
  "/api/discord/messages/" +:+ channel.

(** [this.rest.token] as [pollMessages] reads it.  The REST client keeps the
    token it is given ([rest_token]) in a private field and has no member
    [token]: the read, made under a ts-ignore, yields [undefined]. *)
Definition rest_token_member (s : St) : option string := None.

(** [`${x}`] for a string or [undefined]. *)
Definition js_template (x : option string) : string :=
  match x with
  | Some v => v
  | None => "undefined"
  end.

Definition poll_headers (token : option string) : list (string * string) :=
  [("Authorization", "Bot " +:+ js_template token); ("Content-Type", "application/json")].

Definition pollMessages (agent : string) : Proc unit :=
  state ← get (fun s => roomStates s !! agent);
  match state with
  | None => Ret tt
  | Some st =>
      ch ← read st channelId;
      if truthy_opt ch then
        try_catch
          (token ← get rest_token_member;
           messages ← await (Fetch (poll_url (default "" ch)) (poll_headers token));
           match messages with
           | [] => Ret tt
           | first :: _ =>
               write st (set_lastMessageId (Some (msg_id first)));;
               ch' ← read st channelId;
               handleNewMessages (default "" ch') (rev messages)
           end)
          (fun error => logger_error "Error polling messages:" error)
      else Ret tt
  end.

(** [if (state?.pollingInterval) clearInterval(state.pollingInterval)] *)
Definition clear_polling (state : option loc) : Proc unit :=
  match state with
  | Some st =>
      interval ← read st pollingInterval;
      match interval with
      | Some (Some t) => clearInterval t
      | _ => Ret tt
      end
  | None => Ret tt
  end.

Definition setActiveChannel (agent channel : string) : Proc unit :=
  existingState ← get (fun s => roomStates s !! agent);
  clear_polling existingState;;
  state ← new_object (fresh_room channel);
  modify (upd_roomStates (insert agent state));;
  try_catch
    (messages ← await (RestGet (Routes_channelMessages channel) 1);
     match messages with
     | first :: _ => write state (set_lastMessageId (Some (msg_id first)))
     | [] => Ret tt
     end;;
     t ← setInterval agent;
     write state (set_pollingInterval (Some t)))
    (fun error => logger_error "Error fetching channel messages:" error).

Definition cleanup (agent : string) : Proc unit :=
  state ← get (fun s => roomStates s !! agent);
  clear_polling state;;
  modify (upd_roomStates (delete agent));;
  modify (upd_agents (delete agent));;
  modify (upd_messageHandlers (fun _ => [])).

Definition not_found : JsError := Error "Agent not found or no active channel".

Section SendMessage.

(** [stringToUuid] of the agent runtime package. *)
Variable stringToUuid : string -> string.

Definition post_body (content : Content) : PostBody :=
  {| body_content := text content;
     body_message_reference :=
       if truthy_opt (inReplyTo content) then inReplyTo content else None |}.

Definition make_memory (runtime : IAgentRuntime) (channel : string)
    (content : Content) (response : APIMessage) (now : Z) : Memory :=
  {| mem_id := stringToUuid (msg_id response);
     mem_agentId := agentId runtime;
     mem_userId := agentId runtime;
     mem_roomId := stringToUuid channel;
     mem_content := {| mc_text := text content; mc_source := "discord";
                       mc_inReplyTo := inReplyTo content |};
     mem_createdAt := now |}.

Definition sendMessage (agent : string) (content : Content) : Proc Memory :=
  runtime ← get (fun s => agents s !! agent);
  state ← get (fun s => roomStates s !! agent);
  stateChannel ← match state with
                 | Some st => read st channelId
                 | None => Ret None
                 end;
  dm ← get currentDMChannel;
  let channel := js_or stateChannel dm in
  match runtime, channel with
  | Some runtime, Some ch =>
      if truthy ch then
        try_catch
          (response ← await (RestPost (Routes_channelMessages ch) (post_body content));
           now ← get clock;
           let memory := make_memory runtime ch content response now in
           await (CreateMemory (agentId runtime) memory);;
           match state with
           | Some st => write st (set_lastMessageId (Some (msg_id response)))
           | None => Ret tt
           end;;
           Ret memory)
          (fun error =>
             logger_error "Error sending Discord message:" error;;
             Raise error)
      else Raise not_found
  | _, _ => Raise not_found
  end.

End SendMessage.

(** [new BrowserDiscordManager(runtime)] *)
Definition runtime_discord_token (runtime : IAgentRuntime) : string :=
  default "" (js_or (js_or (secrets_discord_token runtime) (runtime_token runtime)) (Some "")).

Definition fresh_host : St :=
  {| rest_token := ""; agents := ∅; roomStates := ∅; messageHandlers := [];
     currentDMChannel := None; heap := ∅; nextLoc := 0; timers := ∅;
     nextTimer := 1%positive; clock := 0%Z; trace := [] |}.

Definition constructor (runtime : IAgentRuntime) : Proc unit :=
  logger_log "BrowserDiscordManager constructor";;
  modify (set_rest_token (runtime_discord_token runtime));;
  registerAgent runtime;;
  initializeDMChannel.

(** ** Semantics *)

(** The environment answers each awaited call. *)
Definition Env := forall X : Set, Call X -> Res X.

(** A call run to completion, nothing else interleaved. *)
Fixpoint run {A : Type} (env : Env) (p : Proc A) (s : St) : Res A * St :=
  match p with
  | Ret a => (Ok a, s)
  | Raise e => (Throw e, s)
  | Sync m k => let '(x, s') := m s in run env (k x) s'
  | Await c k => run env (k (env _ c)) (emit (EvCall c) s)
  end.

(** A call run up to its next [await]. *)
Inductive Susp (A : Type) : Type :=
| Done (r : Res A)
| Waiting {X : Set} (c : Call X) (k : Res X -> Proc A).
Arguments Done {A} r.
Arguments Waiting {A X} c k.

Fixpoint advance {A : Type} (p : Proc A) (s : St) : Susp A * St :=
  match p with
  | Ret a => (Done (Ok a), s)
  | Raise e => (Done (Throw e), s)
  | Sync m k => let '(x, s') := m s in advance (k x) s'
  | Await c k => (Waiting c k, emit (EvCall c) s)
  end.

(** ** Observations *)

(** The handler invocations of a trace, in order. *)
Definition handler_calls (tr : list Event) : list (MessageHandler * APIMessage) :=
  flat_map (fun e =>
    match e with
    | EvCall c => match c with Handler h m => [(h, m)] | _ => [] end
    | _ => []
    end) tr.

(** The entries of the error log. *)
Definition logged_errors (tr : list Event) : list (string * JsError) :=
  flat_map (fun e => match e with EvError msg err => [(msg, err)] | _ => [] end) tr.

(** The requests sent over the network (the GET of a poll tick, the seed
    GET and the POST). *)
Definition is_network (e : Event) : bool :=
  match e with
  | EvCall c =>
      match c with
      | Fetch _ _ | RestGet _ _ | RestPost _ _ => true
      | _ => false
      end
  | _ => false
  end.

Definition network_calls (tr : list Event) : list Event :=
  List.filter is_network tr.

(** The room state object of a room key, its last-seen cursor and the timer
    handle it records. *)
Definition room (s : St) (key : string) : option DiscordRoomState :=
  roomStates s !! key ≫= fun l => heap s !! l.

Definition cursor (s : St) (key : string) : option string :=
  room s key ≫= lastMessageId.

Definition recorded_timer (s : St) (key : string) : option timer :=
  room s key ≫= pollingInterval.

(** The active timers whose callback polls [key]. *)
Definition timers_for (s : St) (key : string) : list timer :=
  (filter (fun p => p.2.1 = key) (map_to_list (timers s))).*1.

(** The timer table, and the state, once the handle recorded for [key] is
    cleared. *)
Definition timers_after_cancel (s : St) (key : string) : gmap timer (string * Z) :=
  match recorded_timer s key with
  | Some t => delete t (timers s)
  | None => timers s
  end.

Definition cancel_recorded (key : string) (s : St) : St :=
  match recorded_timer s key with
  | Some t => clear_timer t s
  | None => s
  end.

(** [state?.channelId || this.currentDMChannel], when truthy. *)
Definition resolve_channel (s : St) (agent : string) : option string :=
  let channel := js_or (channelId <$> room s agent) (currentDMChannel s) in
  if truthy_opt channel then channel else None.

(** Handlers times non-bot messages, message-major: the invocations the
    fan-out owes for a batch. *)
Definition fan_out (handlers : list MessageHandler) (messages : list APIMessage)
    : list (MessageHandler * APIMessage) :=
  flat_map (fun m => if msg_author_bot m then [] else map (fun h => (h, m)) handlers)
           messages.

(** The events of one guarded handler invocation, and of a whole batch. *)
Definition handler_events (env : Env) (m : APIMessage) (h : MessageHandler) : list Event :=
  EvCall (Handler h m) ::
  match env _ (Handler h m) with
  | Ok _ => []
  | Throw e => [EvError "Error in message handler:" e]
  end.

Definition batch_events (env : Env) (handlers : list MessageHandler)
    (messages : list APIMessage) : list Event :=
  flat_map (fun m =>
    if msg_author_bot m then [] else flat_map (handler_events env m) handlers) messages.

(** The error-log entries owed for the invocations that reject. *)
Definition handler_failures (env : Env) (calls : list (MessageHandler * APIMessage))
    : list (string * JsError) :=
  flat_map (fun '(h, m) =>
    match env _ (Handler h m) with
    | Ok _ => []
    | Throw e => [("Error in message handler:", e)]
    end) calls.

(** The request a poll tick sends for the room state object [o]. *)
Definition poll_request (s : St) (o : DiscordRoomState) : Event :=
  EvCall (Fetch (poll_url (channelId o)) (poll_headers (rest_token_member s))).

(** The batch a poll tick receives, and the events of the whole tick, for a
    room bound to [channel]: they are fixed by what the tick reads for the
    token, the handler set, the channel and the environment. *)
Definition fetched (env : Env) (token : option string) (channel : string)
    : list APIMessage :=
  match env _ (Fetch (poll_url channel) (poll_headers token)) with
  | Ok batch => batch
  | Throw _ => []
  end.

Definition tick_events (env : Env) (token : option string)
    (handlers : list MessageHandler)
    (channel : string) : list Event :=
  if truthy channel then
    EvCall (Fetch (poll_url channel) (poll_headers token)) ::
    match env _ (Fetch (poll_url channel) (poll_headers token)) with
    | Ok batch => batch_events env handlers (rev batch)
    | Throw e => [EvError "Error polling messages:" e]
    end
  else [].

(** ** The event loop *)

(** A call suspended at an [await], with what it does once the awaited
    call settles. *)
Inductive Pending :=
| Pend {X : Set} (c : Call X) (k : Res X -> Proc unit).

(** The manager with its host, and the calls in flight. *)
Record World := {
  mgr : St;
  inflight : list Pending
}.

(** Start a call: it runs until it completes or reaches an [await]. *)
Definition spawn (p : Proc unit) (w : World) : World :=
  match advance p (mgr w) with
  | (Done _, s') => {| mgr := s'; inflight := inflight w |}
  | (Waiting c k, s') => {| mgr := s'; inflight := inflight w ++ [Pend c k] |}
  end.

(** The public methods a client can call on the manager. *)
Inductive Request :=
| ReqAddMessageHandler (handler : MessageHandler)
| ReqRemoveMessageHandler (handler : MessageHandler)
| ReqSetActiveChannel (agent channel : string)
| ReqSendMessage (agent : string) (content : Content)
| ReqCleanup (agent : string).

(** What the event loop can do next: take a client call, fire an active
    timer, settle the [i]-th awaited call with the answer of an environment,
    or let time pass. *)
Inductive Action :=
| Invoke (r : Request)
| Fire (t : timer)
| Settle (i : nat) (env : Env)
| Elapse (now : Z).

Section EventLoop.

Variable stringToUuid : string -> string.

Definition serve (r : Request) : Proc unit :=
  match r with
  | ReqAddMessageHandler h => addMessageHandler h
  | ReqRemoveMessageHandler h => removeMessageHandler h
  | ReqSetActiveChannel agent channel => setActiveChannel agent channel
  | ReqSendMessage agent content => sendMessage stringToUuid agent content;; Ret tt
  | ReqCleanup agent => cleanup agent
  end.

Definition perform (a : Action) (w : World) : option World :=
  match a with
  | Invoke r => Some (spawn (serve r) w)
  | Fire t =>
      match timers (mgr w) !! t with
      | Some (key, _) => Some (spawn (pollMessages key) w)
      | None => None
      end
  | Settle i env =>
      match inflight w !! i with
      | Some (Pend c k) =>
          Some (spawn (k (env _ c)) {| mgr := mgr w; inflight := delete i (inflight w) |})
      | None => None
      end
  | Elapse now =>
      if decide (clock (mgr w) ≤ now)%Z
      then Some {| mgr := set_clock now (mgr w); inflight := inflight w |}
      else None
  end.

Definition step (w w' : World) : Prop := ∃ a, perform a w = Some w'.

Fixpoint perform_all (schedule : list Action) (w : World) : option World :=
  match schedule with
  | [] => Some w
  | a :: schedule' =>
      match perform a w with
      | Some w' => perform_all schedule' w'
      | None => None
      end
  end.

End EventLoop.

(** The world after [new BrowserDiscordManager(runtime)]. *)
Definition boot (runtime : IAgentRuntime) : World :=
  spawn (constructor runtime) {| mgr := fresh_host; inflight := [] |}.

Definition reachable (stringToUuid : string -> string) (runtime : IAgentRuntime)
    (w : World) : Prop :=
  rtc (step stringToUuid) (boot runtime) w.

(** A call keeps the relation [R] between the states before and after each
    of its synchronous segments. *)
Fixpoint respects {A : Type} (R : St -> St -> Prop) (p : Proc A) : Prop :=
  match p with
  | Ret _ => True
  | Raise _ => True
  | Sync m k => ∀ s, R s (m s).2 ∧ respects R (k (m s).1)
  | Await c k => ∀ r, respects R (k r)
  end.

Definition pending_respects (R : St -> St -> Prop) (p : Pending) : Prop :=
  match p with
  | Pend c k => ∀ r, respects R (k r)
  end.

(** Registered agents are never added after construction. *)
Definition no_new_agent (s s' : St) : Prop :=
  ∀ agent, agents s !! agent = None -> agents s' !! agent = None.

(** ** Calls that do not overlap *)

(** Every active timer is the one recorded in the room state of the key it
    polls; room state objects are allocated and not shared between keys. *)
Definition timers_recorded (s : St) : Prop :=
  ∀ t key period, timers s !! t = Some (key, period) -> recorded_timer s key = Some t.

Definition rooms_allocated (s : St) : Prop :=
  ∀ key l, roomStates s !! key = Some l -> l < nextLoc s.

Definition rooms_apart (s : St) : Prop :=
  ∀ key key' l, roomStates s !! key = Some l -> roomStates s !! key' = Some l -> key = key'.

Definition well_formed (s : St) : Prop :=
  timers_recorded s ∧ rooms_allocated s ∧ rooms_apart s.

(** No active timer polls [key]. *)
Definition untimed (key : string) (s : St) : Prop :=
  ∀ t period, timers s !! t ≠ Some (key, period).

(** The event loop when every call runs to completion before the next
    begins: client calls, timer ticks and the passing of time. *)
Inductive seq_step (stringToUuid : string -> string) : St -> St -> Prop :=
| seq_invoke (env : Env) (r : Request) (s : St) :
    seq_step stringToUuid s (run env (serve stringToUuid r) s).2
| seq_fire (env : Env) (t : timer) (key : string) (period : Z) (s : St) :
    timers s !! t = Some (key, period) ->
    seq_step stringToUuid s (run env (pollMessages key) s).2
| seq_elapse (now : Z) (s : St) :
    seq_step stringToUuid s (set_clock now s).

(** ** A concrete deployment *)

Definition agent1 : IAgentRuntime :=
  {| agentId := "agent1"; secrets_discord_token := Some "tok"; runtime_token := None |}.

Definition msg1 : APIMessage :=
  {| msg_id := "1"; msg_author_bot := false; msg_content := "first" |}.
Definition msg2 : APIMessage :=
  {| msg_id := "2"; msg_author_bot := true; msg_content := "second" |}.
Definition msg3 : APIMessage :=
  {| msg_id := "3"; msg_author_bot := false; msg_content := "third" |}.

Definition hello : Content := {| text := "hello"; inReplyTo := None |}.

Definition uuid_of (x : string) : string := "uuid:" +:+ x.

(** An environment whose message endpoint answers [batch] to every GET, and
    where posting, storing and handling succeed. *)
Definition serving (batch : list APIMessage) : Env := fun X c =>
  match c in Call X return Res X with
  | Fetch _ _ => Ok batch
  | RestGet _ _ => Ok batch
  | RestPost _ _ => Ok {| msg_id := "42"; msg_author_bot := true; msg_content := "" |}
  | CreateMemory _ _ => Ok tt
  | Handler _ _ => Ok tt
  end.

(** An environment whose network rejects every request. *)
Definition offline : Env := fun X c =>
  match c in Call X return Res X with
  | Fetch _ _ => Throw (Error "network")
  | RestGet _ _ => Throw (Error "network")
  | RestPost _ _ => Throw (Error "network")
  | CreateMemory _ _ => Ok tt
  | Handler _ _ => Ok tt
  end.

(** An environment whose memory store rejects. *)
Definition store_down : Env := fun X c =>
  match c in Call X return Res X with
  | Fetch _ _ => Ok []
  | RestGet _ _ => Ok []
  | RestPost _ _ => Ok {| msg_id := "42"; msg_author_bot := true; msg_content := "" |}
  | CreateMemory _ _ => Throw (Error "store")
  | Handler _ _ => Ok tt
  end.

(** The manager just constructed for [agent1], with one handler added; then
    with the agent switched to the channel general. *)
Definition booted : St :=
  (run (serving []) (constructor agent1;; addMessageHandler 7) fresh_host).2.

Definition switched : St :=
  (run (serving []) (setActiveChannel "agent1" "general") booted).2.

(** Two [setActiveChannel] calls for one agent, the second made before the
    seed fetch of the first has settled, and the world they lead to. *)
Definition overlapping_switches : list Action :=
  [ Invoke (ReqSetActiveChannel "agent1" "general");
    Invoke (ReqSetActiveChannel "agent1" "random");
    Settle 0 (serving []);
    Settle 0 (serving []) ].

Definition after_overlap : World :=
  match perform_all uuid_of overlapping_switches (boot agent1) with
  | Some w => w
  | None => boot agent1
  end.

(** ** The client interface *)

(** [BrowserDiscordClientInterface.start] and [.stop]: [start] builds the
    manager, [stop] only writes to the log. *)
Definition client_start (runtime : IAgentRuntime) : Proc unit :=
  logger_log "BrowserDiscordClientInterface start";;
  constructor runtime.

Definition client_stop (runtime : IAgentRuntime) : Proc unit :=
  logger_log "Browser Discord client stopping".

(** ** What every reachable manager satisfies *)

(** A call keeps the state predicate [I] over each of its synchronous
    segments, whatever the awaited calls answer. *)
Fixpoint keeps {A : Type} (I : St -> Prop) (p : Proc A) : Prop :=
  match p with
  | Ret _ => True
  | Raise _ => True
  | Sync m k => (∀ s, I s -> I (m s).2) ∧ ∀ x, keeps I (k x)
  | Await c k => ∀ r, keeps I (k r)
  end.

Definition pending_keeps (I : St -> Prop) (p : Pending) : Prop :=
  match p with
  | Pend c k => ∀ r, keeps I (k r)
  end.

(** The registry holds nothing but the constructing runtime, the handler
    set has no duplicate, and the token and the default channel are the ones
    the constructor set. *)
Definition manager_inv (runtime : IAgentRuntime) (s : St) : Prop :=
  (∀ agent r, agents s !! agent = Some r -> agent = agentId runtime ∧ r = runtime) ∧
  NoDup (messageHandlers s) ∧
  currentDMChannel s = Some "202880968556544000" ∧
  rest_token s = runtime_discord_token runtime.

(** The agent of the concrete deployment switched twice, each call run to
    completion before the next. *)
Definition switched_twice : St :=
  (run (serving []) (serve uuid_of (ReqSetActiveChannel "agent1" "random"))
     (run (serving []) (serve uuid_of (ReqSetActiveChannel "agent1" "general"))
        (mgr (boot agent1))).2).2.

(** Every recorded timer handle is an active timer of its key, and active
    handles are below the next handle the host hands out. *)
Definition handles_active (s : St) : Prop :=
  ∀ key t, recorded_timer s key = Some t -> ∃ period, timers s !! t = Some (key, period).

Definition handles_fresh (s : St) : Prop :=
  ∀ t, is_Some (timers s !! t) -> (t < nextTimer s)%positive.

Definition tidy (s : St) : Prop :=
  well_formed s ∧ handles_active s ∧ handles_fresh s.

(** * Properties *)

(** ** Equations of the semantics *)

Lemma emits_nil s : emits [] s = s.
Proof. destruct s; unfold emits; simpl. by rewrite app_nil_r. Qed.

Lemma emits_emits a b s : emits b (emits a s) = emits (a ++ b) s.
Proof. unfold emits; simpl. by rewrite app_assoc. Qed.

Lemma run_ret {A} env (a : A) s : run env (Ret a) s = (Ok a, s).
Proof. done. Qed.

Lemma run_mret {A} env (a : A) s : run env (mret a) s = (Ok a, s).
Proof. done. Qed.

Lemma run_raise {A} env e s : run env (Raise e : Proc A) s = (Throw e, s).
Proof. done. Qed.

Lemma run_get {X : Set} env (f : St -> X) s : run env (get f) s = (Ok (f s), s).
Proof. done. Qed.

Lemma run_modify env f s : run env (modify f) s = (Ok tt, f s).
Proof. done. Qed.

Lemma run_await {X : Set} env (c : Call X) s :
  run env (await c) s = (env X c, emit (EvCall c) s).
Proof. unfold await; simpl. by destruct (env X c). Qed.

Lemma run_bind {A B} env (p : Proc A) (f : A -> Proc B) s :
  run env (p ≫= f) s =
  match run env p s with
  | (Ok a, s') => run env (f a) s'
  | (Throw e, s') => (Throw e, s')
  end.
Proof.
  revert s. induction p as [a|e|X m k IH|X c k IH]; intros s; simpl.
  - done.
  - done.
  - destruct (m s) as [x s']. apply IH.
  - apply IH.
Qed.

Lemma run_try_catch {A} env (p : Proc A) h s :
  run env (try_catch p h) s =
  match run env p s with
  | (Ok a, s') => (Ok a, s')
  | (Throw e, s') => run env (h e) s'
  end.
Proof.
  revert s. induction p as [a|e|X m k IH|X c k IH]; intros s; simpl.
  - done.
  - done.
  - destruct (m s) as [x s']. apply IH.
  - apply IH.
Qed.

Lemma run_new_object env o s :
  run env (new_object o) s = (Ok (nextLoc s), alloc o s).
Proof. done. Qed.

Lemma run_setInterval env key s :
  run env (setInterval key) s = (Ok (nextTimer s), install_timer key s).
Proof. done. Qed.

Lemma run_clearInterval env t s :
  run env (clearInterval t) s = (Ok tt, clear_timer t s).
Proof. done. Qed.

Lemma run_read {X : Set} env l (f : DiscordRoomState -> X) s :
  run env (read l f) s = (Ok (f <$> heap s !! l), s).
Proof. done. Qed.

Lemma run_write env l f s :
  run env (write l f) s = (Ok tt, upd_heap (alter f l) s).
Proof. done. Qed.

Lemma run_logger_error env msg e s :
  run env (logger_error msg e) s = (Ok tt, emit (EvError msg e) s).
Proof. done. Qed.

(** Push [run] through the monadic structure of a method body. *)
Ltac run_all :=
  repeat (first
    [ rewrite run_bind | rewrite run_try_catch | rewrite run_get
    | rewrite run_modify | rewrite run_await | rewrite run_ret
    | rewrite run_mret | rewrite run_raise | rewrite run_read
    | rewrite run_write | rewrite run_logger_error | rewrite run_new_object
    | rewrite run_setInterval | rewrite run_clearInterval ];
    cbv beta iota zeta).

Lemma for_each_cons {X} (x : X) l body :
  for_each (x :: l) body = (body x;; for_each l body).
Proof. done. Qed.

#[local] Arguments run : simpl never.
#[local] Arguments bind : simpl never.
#[local] Arguments try_catch : simpl never.
#[local] Arguments for_each : simpl never.
#[local] Arguments get : simpl never.
#[local] Arguments modify : simpl never.
#[local] Arguments await : simpl never.

Lemma run_handlers env m hs s :
  run env (for_each hs (fun handler =>
             try_catch (await (Handler handler m))
               (fun error => logger_error "Error in message handler:" error))) s
  = (Ok tt, emits (flat_map (handler_events env m) hs) s).
Proof.
  revert s. induction hs as [|h hs IH]; intros s.
  - by rewrite emits_nil.
  - rewrite for_each_cons. unfold logger_error. run_all.
    cbn [flat_map]. unfold handler_events at 1.
    destruct (env unit (Handler h m)) as [[]|e]; run_all; rewrite IH; unfold emit;
      by rewrite ?emits_emits.
Qed.

Lemma run_handleNewMessages env channel messages s :
  run env (handleNewMessages channel messages) s
  = (Ok tt, emits (batch_events env (messageHandlers s) messages) s).
Proof.
  unfold handleNewMessages, batch_events.
  revert s. induction messages as [|m ms IH]; intros s.
  - by rewrite emits_nil.
  - rewrite for_each_cons, run_bind. cbn [flat_map]. destruct (msg_author_bot m).
    + run_all. apply IH.
    + run_all. rewrite run_handlers, IH. by rewrite emits_emits.
Qed.

Lemma run_pollMessages_no_room env key s :
  roomStates s !! key = None ->
  run env (pollMessages key) s = (Ok tt, s).
Proof. intros H. unfold pollMessages. run_all. rewrite H. by run_all. Qed.

Lemma run_pollMessages env key l o s :
  roomStates s !! key = Some l ->
  heap s !! l = Some o ->
  run env (pollMessages key) s =
  if truthy (channelId o) then
    match env _ (Fetch (poll_url (channelId o)) (poll_headers (rest_token_member s))) with
    | Ok [] => (Ok tt, emit (poll_request s o) s)
    | Ok (first :: rest) =>
        (Ok tt, emits (batch_events env (messageHandlers s) (rev (first :: rest)))
                  (upd_heap (alter (set_lastMessageId (Some (msg_id first))) l)
                     (emit (poll_request s o) s)))
    | Throw e =>
        (Ok tt, emit (EvError "Error polling messages:" e) (emit (poll_request s o) s))
    end
  else (Ok tt, s).
Proof.
  intros Hl Ho. unfold pollMessages. run_all. rewrite Hl. run_all.
  rewrite Ho. cbn [fmap option_fmap option_map truthy_opt default].
  destruct (truthy (channelId o)); [|by run_all].
  run_all. unfold poll_request.
  destruct (env _ (Fetch _ _)) as [[|first rest]|e]; run_all; try done.
  rewrite run_handleNewMessages. done.
Qed.

(** ** Reading a trace *)

Lemma handler_calls_app a b :
  handler_calls (a ++ b) = handler_calls a ++ handler_calls b.
Proof. apply flat_map_app. Qed.

Lemma logged_errors_app a b :
  logged_errors (a ++ b) = logged_errors a ++ logged_errors b.
Proof. apply flat_map_app. Qed.

Lemma handler_calls_handlers env m hs :
  handler_calls (flat_map (handler_events env m) hs) = map (fun h => (h, m)) hs.
Proof.
  induction hs as [|h hs IH]; [done|].
  cbn [flat_map map]. rewrite handler_calls_app, IH. unfold handler_events.
  by destruct (env _ (Handler h m)).
Qed.

Lemma handler_calls_batch env hs ms :
  handler_calls (batch_events env hs ms) = fan_out hs ms.
Proof.
  unfold batch_events, fan_out. induction ms as [|m ms IH]; [done|].
  cbn [flat_map]. rewrite handler_calls_app, IH.
  destruct (msg_author_bot m); [done|]. by rewrite handler_calls_handlers.
Qed.

Lemma logged_errors_handlers env m hs :
  logged_errors (flat_map (handler_events env m) hs)
  = handler_failures env (map (fun h => (h, m)) hs).
Proof.
  induction hs as [|h hs IH]; [done|].
  cbn [flat_map map]. rewrite logged_errors_app, IH. unfold handler_events.
  unfold handler_failures at 2. cbn [flat_map].
  by destruct (env _ (Handler h m)).
Qed.

Lemma handler_failures_app env a b :
  handler_failures env (a ++ b) = handler_failures env a ++ handler_failures env b.
Proof. apply flat_map_app. Qed.

Lemma logged_errors_batch env hs ms :
  logged_errors (batch_events env hs ms) = handler_failures env (fan_out hs ms).
Proof.
  unfold batch_events, fan_out. induction ms as [|m ms IH]; [done|].
  cbn [flat_map]. rewrite logged_errors_app, handler_failures_app, IH.
  destruct (msg_author_bot m); [done|]. by rewrite logged_errors_handlers.
Qed.


(** ** The handler fan-out *)

(** C7: whatever the handlers do, [handleNewMessages] completes normally and
    invokes every registered handler on every non-bot message of the batch,
    in batch order; each rejection is caught and written to the error log,
    and nothing else of the manager changes. *)
Theorem handler_failure_is_contained (env : Env) channel messages s :
  run env (handleNewMessages channel messages) s
    = (Ok tt, emits (batch_events env (messageHandlers s) messages) s) ∧
  handler_calls (batch_events env (messageHandlers s) messages)
    = fan_out (messageHandlers s) messages ∧
  logged_errors (batch_events env (messageHandlers s) messages)
    = handler_failures env (fan_out (messageHandlers s) messages).
Proof.
  split; [apply run_handleNewMessages|].
  split; [apply handler_calls_batch|].
  apply logged_errors_batch.
Qed.

(** ** The poll tick *)

Lemma cursor_after_write s key l o v evs evs' :
  roomStates s !! key = Some l ->
  heap s !! l = Some o ->
  cursor (emits evs (upd_heap (alter (set_lastMessageId v) l) (emits evs' s))) key = v.
Proof.
  intros Hl Ho. unfold cursor, room. cbn. rewrite Hl. cbn.
  rewrite lookup_alter_eq, Ho. done.
Qed.

(** C3: a poll tick whose fetch answers a non-empty batch (newest first)
    completes normally, leaves the first item's identifier as the room's
    last-seen cursor, and invokes the handlers on the non-bot messages of
    the reversed batch, oldest first, each message with every handler. *)
Theorem poll_batch_cursor_and_order (env : Env) s key l o first rest :
  roomStates s !! key = Some l ->
  heap s !! l = Some o ->
  truthy (channelId o) = true ->
  env _ (Fetch (poll_url (channelId o)) (poll_headers (rest_token_member s)))
  = Ok (first :: rest) ->
  ∃ s', run env (pollMessages key) s = (Ok tt, s') ∧
        cursor s' key = Some (msg_id first) ∧
        handler_calls (trace s')
          = handler_calls (trace s) ++ fan_out (messageHandlers s) (rev (first :: rest)).
Proof.
  intros Hl Ho Hch Hfetch. eexists. split.
  - rewrite (run_pollMessages env key l o s Hl Ho), Hch, Hfetch. reflexivity.
  - split.
    + unfold emit. by eapply cursor_after_write.
    + cbn [trace emits emit upd_heap]. rewrite !handler_calls_app, handler_calls_batch.
      cbn. by rewrite app_nil_r.
Qed.

(** The scenario of the specification: the batch 3 (user), 2 (bot), 1 (user)
    is handed to the handler as 1 then 3, and the cursor becomes 3. *)
Lemma poll_batch_scenario :
  ∃ s', run (serving [msg3; msg2; msg1]) (pollMessages "dm") booted = (Ok tt, s') ∧
        cursor s' "dm" = Some "3" ∧
        handler_calls (trace s') = [] ++ [(7, msg1); (7, msg3)].
Proof.
  apply (poll_batch_cursor_and_order (serving [msg3; msg2; msg1]) booted "dm" 0
           {| channelId := "202880968556544000"; lastMessageId := None;
              voiceConnection := None; pollingInterval := Some 1%positive |}
           msg3 [msg2; msg1]); reflexivity.
Defined.

(** C1 (as stated) fails: the room has the cursor 1 recorded after the first
    tick, the second tick sends the very same request, and message 1, already
    handed to the handler, is handed to it again. *)
Lemma poll_dispatches_again :
  let s1 := (run (serving [msg1]) (pollMessages "dm") booted).2 in
  let s2 := (run (serving [msg1]) (pollMessages "dm") s1).2 in
  cursor s1 "dm" = Some "1" ∧
  handler_calls (trace s1) = [(7, msg1)] ∧
  network_calls (trace s2)
    = [EvCall (Fetch "/api/discord/messages/202880968556544000"
                 [("Authorization", "Bot undefined"); ("Content-Type", "application/json")]);
       EvCall (Fetch "/api/discord/messages/202880968556544000"
                 [("Authorization", "Bot undefined"); ("Content-Type", "application/json")])] ∧
  handler_calls (trace s2) = [(7, msg1); (7, msg1)].
Proof. vm_compute. repeat split; reflexivity. Qed.

Lemma run_pollMessages_trace env key l o s :
  roomStates s !! key = Some l ->
  heap s !! l = Some o ->
  (run env (pollMessages key) s).1 = Ok tt ∧
  trace (run env (pollMessages key) s).2
  = trace s ++ tick_events env (rest_token_member s) (messageHandlers s) (channelId o).
Proof.
  intros Hl Ho. rewrite (run_pollMessages env key l o s Hl Ho).
  unfold tick_events, poll_request.
  destruct (truthy (channelId o)); [|by rewrite app_nil_r].
  destruct (env _ (Fetch _ _)) as [[|first rest]|e]; split; try done; cbn.
  - by rewrite <- !app_assoc.
  - by rewrite <- !app_assoc.
Qed.

Lemma handler_calls_tick env token hs channel :
  handler_calls (tick_events env token hs channel)
  = if truthy channel then fan_out hs (rev (fetched env token channel)) else [].
Proof.
  unfold tick_events, fetched. destruct (truthy channel); [|done].
  cbn [handler_calls flat_map app].
  destruct (env _ (Fetch _ _)) as [batch|e]; [|done].
  apply handler_calls_batch.
Qed.

Lemma network_calls_app a b :
  network_calls (a ++ b) = network_calls a ++ network_calls b.
Proof. apply List.filter_app. Qed.

Lemma network_calls_handlers env m hs :
  network_calls (flat_map (handler_events env m) hs) = [].
Proof.
  induction hs as [|h hs IH]; [done|].
  cbn [flat_map]. rewrite network_calls_app, IH. unfold handler_events.
  by destruct (env _ (Handler h m)).
Qed.

Lemma network_calls_batch env hs ms : network_calls (batch_events env hs ms) = [].
Proof.
  unfold batch_events. induction ms as [|m ms IH]; [done|].
  cbn [flat_map]. rewrite network_calls_app, IH, app_nil_r.
  destruct (msg_author_bot m); [done|]. apply network_calls_handlers.
Qed.

Lemma network_calls_tick env token hs channel :
  network_calls (tick_events env token hs channel)
  = if truthy channel then [EvCall (Fetch (poll_url channel) (poll_headers token))] else [].
Proof.
  unfold tick_events. destruct (truthy channel); [|done].
  cbn [network_calls List.filter is_network].
  destruct (env _ (Fetch _ _)) as [batch|e]; [|done].
  fold (network_calls (batch_events env hs (rev batch))).
  by rewrite network_calls_batch.
Qed.

(** C1 (amended): the recorded cursor takes no part in a poll tick.  Whatever
    cursor [c] the room state holds, the tick sends the same request, built
    from the channel alone with fixed headers, and hands every non-bot
    message of the answered batch to every handler, oldest first: also a
    message dispatched before, when the endpoint answers it again. *)
Theorem poll_tick_ignores_cursor (env : Env) s key l o c :
  roomStates s !! key = Some l ->
  heap s !! l = Some o ->
  let s_c := upd_heap (insert l (set_lastMessageId c o)) s in
  let events := tick_events env (rest_token_member s) (messageHandlers s) (channelId o) in
  cursor s_c key = c ∧
  (run env (pollMessages key) s_c).1 = Ok tt ∧
  trace (run env (pollMessages key) s_c).2 = trace s ++ events ∧
  network_calls events
    = (if truthy (channelId o)
       then [EvCall (Fetch (poll_url (channelId o))
                       [("Authorization", "Bot undefined");
                        ("Content-Type", "application/json")])]
       else []) ∧
  handler_calls events
    = (if truthy (channelId o)
       then fan_out (messageHandlers s)
                    (rev (fetched env (rest_token_member s) (channelId o)))
       else []).
Proof.
  intros Hl Ho s_c events.
  assert (Hl' : roomStates s_c !! key = Some l) by done.
  assert (Ho' : heap s_c !! l = Some (set_lastMessageId c o)).
  { unfold s_c; cbn. apply lookup_insert_eq. }
  destruct (run_pollMessages_trace env key l _ s_c Hl' Ho') as [Hr Ht].
  split; [|split; [done|split; [done|split]]].
  - unfold cursor, room. rewrite Hl'. cbn. rewrite lookup_insert_eq. done.
  - apply network_calls_tick.
  - apply handler_calls_tick.
Qed.

Lemma poll_tick_ignores_cursor_booted :
  roomStates booted !! "dm" = Some 0 ∧
  let o := {| channelId := "202880968556544000"; lastMessageId := None;
              voiceConnection := None; pollingInterval := Some 1%positive |} in
  let s_c := upd_heap (insert 0 (set_lastMessageId (Some "1") o)) booted in
  let events := tick_events (serving [msg1]) None [7] "202880968556544000" in
  cursor s_c "dm" = Some "1" ∧
  (run (serving [msg1]) (pollMessages "dm") s_c).1 = Ok tt ∧
  trace (run (serving [msg1]) (pollMessages "dm") s_c).2 = trace booted ++ events ∧
  network_calls events
    = [EvCall (Fetch (poll_url "202880968556544000")
                 [("Authorization", "Bot undefined");
                  ("Content-Type", "application/json")])] ∧
  handler_calls events = fan_out [7] (rev [msg1]).
Proof.
  split; [reflexivity|].
  apply (poll_tick_ignores_cursor (serving [msg1]) booted "dm" 0
           {| channelId := "202880968556544000"; lastMessageId := None;
              voiceConnection := None; pollingInterval := Some 1%positive |}
           (Some "1")); reflexivity.
Defined.

(** ** Switching the active channel *)

Lemma run_clear_polling env key s :
  run env (clear_polling (roomStates s !! key)) s = (Ok tt, cancel_recorded key s).
Proof.
  unfold clear_polling, cancel_recorded, recorded_timer, room.
  destruct (roomStates s !! key) as [l|]; cbn; [|done].
  run_all. destruct (heap s !! l) as [o|]; cbn; [|done].
  destruct (pollingInterval o); by run_all.
Qed.

Lemma run_setActiveChannel env agent channel s :
  let s1 := cancel_recorded agent s in
  let l := nextLoc s1 in
  let s2 := emit (EvCall (RestGet (Routes_channelMessages channel) 1))
              (upd_roomStates (insert agent l) (alloc (fresh_room channel) s1)) in
  run env (setActiveChannel agent channel) s =
  match env _ (RestGet (Routes_channelMessages channel) 1) with
  | Ok messages =>
      let s3 := match messages with
                | first :: _ =>
                    upd_heap (alter (set_lastMessageId (Some (msg_id first))) l) s2
                | [] => s2
                end in
      (Ok tt, upd_heap (alter (set_pollingInterval (Some (nextTimer s3))) l)
                (install_timer agent s3))
  | Throw e => (Ok tt, emit (EvError "Error fetching channel messages:" e) s2)
  end.
Proof.
  intros s1 l s2. unfold setActiveChannel. rewrite run_bind, run_get. cbv beta iota.
  rewrite run_bind, run_clear_polling. cbv beta iota. fold s1.
  run_all. fold l. fold (fresh_room channel). fold s2.
  destruct (env _ (RestGet _ _)) as [[|first rest]|e]; by run_all.
Qed.

Lemma cancel_recorded_timers key s :
  timers (cancel_recorded key s) = timers_after_cancel s key.
Proof.
  unfold cancel_recorded, timers_after_cancel. by destruct (recorded_timer s key).
Qed.

Lemma cancel_recorded_nextTimer key s :
  nextTimer (cancel_recorded key s) = nextTimer s.
Proof. unfold cancel_recorded. by destruct (recorded_timer s key). Qed.

Lemma cancel_recorded_errors key s :
  logged_errors (trace (cancel_recorded key s)) = logged_errors (trace s).
Proof.
  unfold cancel_recorded. destruct (recorded_timer s key); [|done].
  cbn. by rewrite logged_errors_app, app_nil_r.
Qed.

(** C2 (as stated) fails: with the REST client rejecting the seed fetch the
    call returns normally and logs the failure, but no timer is installed
    for the agent's room. *)
Lemma seed_failure_leaves_no_timer :
  let s' := (run offline (setActiveChannel "agent1" "general") booted).2 in
  (run offline (setActiveChannel "agent1" "general") booted).1 = Ok tt ∧
  logged_errors (trace s') = [("Error fetching channel messages:", Error "network")] ∧
  room s' "agent1" = Some (fresh_room "general") ∧
  timers_for s' "agent1" = [] ∧
  timers s' = timers booted.
Proof. vm_compute. repeat split; reflexivity. Qed.

(** C2 (amended): [setActiveChannel] never throws.  When the seed fetch
    fails the failure is logged and no timer is installed: the room is left
    bound to the new channel with no cursor and no timer handle.  When the
    seed fetch succeeds the cursor is seeded from the first message, if any,
    and one new timer is installed for the agent's room and recorded in its
    state.  In both cases the timer recorded before the call is cleared. *)
Theorem setActiveChannel_seed (env : Env) agent channel s :
  (run env (setActiveChannel agent channel) s).1 = Ok tt ∧
  let s' := (run env (setActiveChannel agent channel) s).2 in
  match env _ (RestGet (Routes_channelMessages channel) 1) with
  | Ok messages =>
      timers s' = <[nextTimer s := (agent, POLLING_INTERVAL)]> (timers_after_cancel s agent) ∧
      room s' agent = Some {| channelId := channel;
                              lastMessageId := msg_id <$> head messages;
                              voiceConnection := None;
                              pollingInterval := Some (nextTimer s) |} ∧
      logged_errors (trace s') = logged_errors (trace s)
  | Throw e =>
      timers s' = timers_after_cancel s agent ∧
      room s' agent = Some (fresh_room channel) ∧
      logged_errors (trace s')
        = logged_errors (trace s) ++ [("Error fetching channel messages:", e)]
  end.
Proof.
  rewrite run_setActiveChannel. cbv zeta.
  destruct (env _ (RestGet _ _)) as [[|first rest]|e]; cbn [fst snd].
  - split; [done|]. split; [|split].
    + cbn. by rewrite cancel_recorded_timers, cancel_recorded_nextTimer.
    + unfold room. cbn. rewrite lookup_insert_eq. cbn.
      rewrite lookup_alter_eq, lookup_insert_eq. cbn.
      by rewrite cancel_recorded_nextTimer.
    + cbn. rewrite !logged_errors_app, cancel_recorded_errors. cbn.
      by rewrite !app_nil_r.
  - split; [done|]. split; [|split].
    + cbn. by rewrite cancel_recorded_timers, cancel_recorded_nextTimer.
    + unfold room. cbn. rewrite lookup_insert_eq. cbn.
      rewrite lookup_alter_eq, lookup_alter_eq, lookup_insert_eq. cbn.
      by rewrite cancel_recorded_nextTimer.
    + cbn. rewrite !logged_errors_app, cancel_recorded_errors. cbn.
      by rewrite !app_nil_r.
  - split; [done|]. split; [|split].
    + cbn. by rewrite cancel_recorded_timers.
    + unfold room. cbn. rewrite lookup_insert_eq. cbn.
      by rewrite lookup_insert_eq.
    + cbn. rewrite !logged_errors_app, cancel_recorded_errors. cbn.
      by rewrite ?app_nil_r.
Qed.

(** ** Sending a message *)

Section SendMessageFacts.

Variable stringToUuid : string -> string.

Lemma run_sendMessage env agent content s :
  run env (sendMessage stringToUuid agent content) s =
  match agents s !! agent, resolve_channel s agent with
  | Some rt, Some ch =>
      let post := RestPost (Routes_channelMessages ch) (post_body content) in
      let s1 := emit (EvCall post) s in
      match env _ post with
      | Ok response =>
          let memory := make_memory stringToUuid rt ch content response (clock s) in
          let s2 := emit (EvCall (CreateMemory (agentId rt) memory)) s1 in
          match env _ (CreateMemory (agentId rt) memory) with
          | Ok _ =>
              (Ok memory,
               match roomStates s !! agent with
               | Some l =>
                   upd_heap (alter (set_lastMessageId (Some (msg_id response))) l) s2
               | None => s2
               end)
          | Throw e => (Throw e, emit (EvError "Error sending Discord message:" e) s2)
          end
      | Throw e => (Throw e, emit (EvError "Error sending Discord message:" e) s1)
      end
  | _, _ => (Throw not_found, s)
  end.
Proof.
  unfold sendMessage, resolve_channel, room. run_all.
  assert (Hch : (run env match roomStates s !! agent with
                         | Some st => read st channelId
                         | None => Ret None
                         end s)
                = (Ok (channelId <$> (roomStates s !! agent ≫= fun l => heap s !! l)), s)).
  { destruct (roomStates s !! agent); by run_all. }
  rewrite Hch. clear Hch. run_all.
  set (channel := js_or _ _).
  destruct (agents s !! agent) as [rt|]; [|done].
  destruct channel as [ch|] eqn:Hc; [|done]. cbn [truthy_opt].
  destruct (truthy ch); [|done].
  run_all.
  destruct (env _ (RestPost _ _)) as [response|e]; run_all; [|done].
  destruct (env _ (CreateMemory _ _)) as [[]|e]; run_all; [|done].
  destruct (roomStates s !! agent); by run_all.
Qed.

Lemma resolve_channel_None s agent :
  resolve_channel s agent = None ↔
  truthy_opt (channelId <$> room s agent) = false ∧
  truthy_opt (currentDMChannel s) = false.
Proof.
  unfold resolve_channel, js_or.
  destruct (truthy_opt (channelId <$> room s agent)) eqn:Ha.
  - rewrite Ha. split; [|by intros [? _]].
    destruct (channelId <$> room s agent); done.
  - destruct (truthy_opt (currentDMChannel s)) eqn:Hb; [|done].
    split; [|by intros [_ ?]]. destruct (currentDMChannel s); done.
Qed.

Lemma trace_grows s evs e : trace s ++ e :: evs ≠ trace s.
Proof.
  intros H. apply (f_equal length) in H. rewrite length_app in H. cbn in H. lia.
Qed.

(** C4: [sendMessage] throws the not-found error, with the manager and the
    trace untouched (no request is sent), exactly when no runtime is
    registered for the agent or no channel resolves, that is, neither the
    agent's room state nor the default direct-message channel gives a
    non-empty channel identifier; otherwise the POST is sent. *)
Theorem sendMessage_not_found (env : Env) agent content s :
  let r := run env (sendMessage stringToUuid agent content) s in
  (r = (Throw not_found, s)
     ↔ agents s !! agent = None ∨ resolve_channel s agent = None) ∧
  (resolve_channel s agent = None
     ↔ truthy_opt (channelId <$> room s agent) = false ∧
       truthy_opt (currentDMChannel s) = false) ∧
  match agents s !! agent, resolve_channel s agent with
  | Some rt, Some ch =>
      ∃ rest, trace r.2 = trace s ++
        EvCall (RestPost (Routes_channelMessages ch) (post_body content)) :: rest
  | _, _ => r.1 = Throw not_found ∧ network_calls (trace r.2) = network_calls (trace s)
  end.
Proof.
  cbv zeta. rewrite run_sendMessage. split; [|split; [apply resolve_channel_None|]].
  - destruct (agents s !! agent) as [rt|]; [|by split; [left|]].
    destruct (resolve_channel s agent) as [ch|]; [|by split; [right|]].
    split; [|by intros [|]]. cbv zeta. intros H. exfalso.
    destruct (env _ (RestPost _ _)) as [response|e].
    + destruct (env _ (CreateMemory _ _)) as [[]|e].
      * injection H as _ H. apply (f_equal trace) in H.
        destruct (roomStates s !! agent); cbn in H;
          rewrite <- app_assoc in H; by apply trace_grows in H.
      * injection H as _ H. apply (f_equal trace) in H. cbn in H.
        rewrite <- !app_assoc in H. by apply trace_grows in H.
    + injection H as _ H. apply (f_equal trace) in H. cbn in H.
      rewrite <- !app_assoc in H. by apply trace_grows in H.
  - destruct (agents s !! agent) as [rt|]; [|done].
    destruct (resolve_channel s agent) as [ch|]; [|done]. cbv zeta.
    destruct (env _ (RestPost _ _)) as [response|e].
    + destruct (env _ (CreateMemory _ _)) as [[]|e].
      * destruct (roomStates s !! agent); cbn; rewrite <- app_assoc; by eexists.
      * cbn. rewrite <- !app_assoc. by eexists.
    + cbn. rewrite <- !app_assoc. by eexists.
Qed.

(** C5 (amended): a [sendMessage] that returns a record went through a
    registered runtime and a resolved channel; the record is the one built
    from the POST response, its [roomId] is [stringToUuid] of the resolved
    channel and its [id] is [stringToUuid] of the response identifier.  The
    cursor written is the one of the agent's own room state: when the
    agent has one it becomes the identifier of the sent message, and when
    the channel came from the direct-message fallback no room state
    changes at all. *)
Theorem sendMessage_success (env : Env) agent content s memory s' :
  run env (sendMessage stringToUuid agent content) s = (Ok memory, s') ->
  ∃ rt ch response,
    agents s !! agent = Some rt ∧
    resolve_channel s agent = Some ch ∧
    env _ (RestPost (Routes_channelMessages ch) (post_body content)) = Ok response ∧
    memory = make_memory stringToUuid rt ch content response (clock s) ∧
    mem_roomId memory = stringToUuid ch ∧
    mem_id memory = stringToUuid (msg_id response) ∧
    roomStates s' = roomStates s ∧
    match room s agent with
    | Some _ => cursor s' agent = Some (msg_id response)
    | None => heap s' = heap s
    end.
Proof.
  rewrite run_sendMessage. intros H.
  destruct (agents s !! agent) as [rt|]; [|done].
  destruct (resolve_channel s agent) as [ch|]; [|done]. cbv zeta in H.
  destruct (env _ (RestPost _ _)) as [response|e] eqn:Hpost; [|done].
  destruct (env _ (CreateMemory _ _)) as [[]|e]; [|done].
  injection H as <- <-. exists rt, ch, response.
  do 6 (split; [done|]). unfold room, cursor, room.
  destruct (roomStates s !! agent) as [l|] eqn:Hl; cbn; [|done].
  split; [done|]. rewrite Hl. cbn. rewrite lookup_alter_eq.
  destruct (heap s !! l) as [o|] eqn:Ho; cbn; [done|].
  apply map_eq. intros i. rewrite lookup_alter.
  case_decide; [subst; by rewrite Ho|done].
Qed.

(** C10: when the POST or the memory store rejects, [sendMessage] logs the
    error and throws that same error, and no room state has changed: every
    cursor is what it was before the call. *)
Theorem sendMessage_failure (env : Env) agent content s rt ch e :
  agents s !! agent = Some rt ->
  resolve_channel s agent = Some ch ->
  (env _ (RestPost (Routes_channelMessages ch) (post_body content)) = Throw e ∨
   ∃ response,
     env _ (RestPost (Routes_channelMessages ch) (post_body content)) = Ok response ∧
     env _ (CreateMemory (agentId rt)
              (make_memory stringToUuid rt ch content response (clock s))) = Throw e) ->
  ∃ s', run env (sendMessage stringToUuid agent content) s = (Throw e, s') ∧
        logged_errors (trace s')
          = logged_errors (trace s) ++ [("Error sending Discord message:", e)] ∧
        heap s' = heap s ∧
        roomStates s' = roomStates s ∧
        ∀ key, cursor s' key = cursor s key.
Proof.
  intros Hrt Hch Hfail. rewrite run_sendMessage, Hrt, Hch. cbv zeta.
  destruct Hfail as [Hpost|(response & Hpost & Hstore)].
  - rewrite Hpost. eexists. split; [done|]. split; [|done].
    cbn. by rewrite !logged_errors_app, app_nil_r.
  - rewrite Hpost, Hstore. eexists. split; [done|]. split; [|done].
    cbn. by rewrite !logged_errors_app, !app_nil_r.
Qed.

End SendMessageFacts.

(** C5 (as stated) fails: the agent has no room state of its own, the
    message goes to the default direct-message channel and the record is
    returned, but no cursor is written: the one of the direct-message room
    included. *)
Lemma fallback_send_writes_no_cursor :
  let r := run (serving []) (sendMessage uuid_of "agent1" hello) booted in
  (mem_roomId <$> (match r.1 with Ok m => Some m | Throw _ => None end))
    = Some (uuid_of "202880968556544000") ∧
  (mem_id <$> (match r.1 with Ok m => Some m | Throw _ => None end))
    = Some (uuid_of "42") ∧
  roomStates r.2 !! "agent1" = None ∧
  cursor r.2 "agent1" = None ∧
  cursor r.2 "dm" = None ∧
  heap r.2 = heap booted.
Proof. vm_compute. repeat split; reflexivity. Qed.

Lemma sendMessage_success_switched :
  ∃ rt ch response,
    agents switched !! "agent1" = Some rt ∧
    resolve_channel switched "agent1" = Some ch ∧
    serving [] _ (RestPost (Routes_channelMessages ch) (post_body hello)) = Ok response ∧
    make_memory uuid_of agent1 "general" hello
      {| msg_id := "42"; msg_author_bot := true; msg_content := "" |} 0
      = make_memory uuid_of rt ch hello response (clock switched) ∧
    uuid_of "general" = uuid_of ch ∧
    uuid_of "42" = uuid_of (msg_id response) ∧
    roomStates (run (serving []) (sendMessage uuid_of "agent1" hello) switched).2
      = roomStates switched ∧
    match room switched "agent1" with
    | Some _ =>
        cursor (run (serving []) (sendMessage uuid_of "agent1" hello) switched).2 "agent1"
        = Some (msg_id response)
    | None =>
        heap (run (serving []) (sendMessage uuid_of "agent1" hello) switched).2
        = heap switched
    end.
Proof.
  apply (sendMessage_success uuid_of (serving []) "agent1" hello switched
           (make_memory uuid_of agent1 "general" hello
              {| msg_id := "42"; msg_author_bot := true; msg_content := "" |} 0)
           (run (serving []) (sendMessage uuid_of "agent1" hello) switched).2).
  vm_compute. reflexivity.
Defined.

Lemma sendMessage_failure_switched :
  (∃ s', run offline (sendMessage uuid_of "agent1" hello) switched
           = (Throw (Error "network"), s') ∧
         logged_errors (trace s')
           = logged_errors (trace switched)
             ++ [("Error sending Discord message:", Error "network")] ∧
         heap s' = heap switched ∧
         roomStates s' = roomStates switched ∧
         ∀ key, cursor s' key = cursor switched key) ∧
  (∃ s', run store_down (sendMessage uuid_of "agent1" hello) switched
           = (Throw (Error "store"), s') ∧
         logged_errors (trace s')
           = logged_errors (trace switched)
             ++ [("Error sending Discord message:", Error "store")] ∧
         heap s' = heap switched ∧
         roomStates s' = roomStates switched ∧
         ∀ key, cursor s' key = cursor switched key).
Proof.
  split.
  - apply (sendMessage_failure uuid_of offline "agent1" hello switched agent1 "general");
      [reflexivity | reflexivity | left; reflexivity].
  - apply (sendMessage_failure uuid_of store_down "agent1" hello switched agent1 "general");
      [reflexivity | reflexivity | right; eexists; split; reflexivity].
Defined.

(** ** Cleanup *)

Lemma run_cleanup env agent s :
  run env (cleanup agent) s =
  (Ok tt, upd_messageHandlers (fun _ => [])
            (upd_agents (delete agent)
               (upd_roomStates (delete agent) (cancel_recorded agent s)))).
Proof.
  unfold cleanup. rewrite run_bind, run_get. cbv beta iota.
  rewrite run_bind, run_clear_polling. cbv beta iota. by run_all.
Qed.

Lemma run_pollMessages_dangling env key l s :
  roomStates s !! key = Some l ->
  heap s !! l = None ->
  run env (pollMessages key) s = (Ok tt, s).
Proof.
  intros Hl Ho. unfold pollMessages. run_all. rewrite Hl. run_all.
  rewrite Ho. cbn. by run_all.
Qed.

Lemma poll_without_handlers env key s :
  messageHandlers s = [] ->
  handler_calls (trace (run env (pollMessages key) s).2) = handler_calls (trace s).
Proof.
  intros Hh. destruct (roomStates s !! key) as [l|] eqn:Hl.
  - destruct (heap s !! l) as [o|] eqn:Ho.
    + destruct (run_pollMessages_trace env key l o s Hl Ho) as [_ ->].
      rewrite handler_calls_app, handler_calls_tick, Hh.
      destruct (truthy (channelId o)); [|by rewrite app_nil_r].
      assert (Hnil : ∀ ms, fan_out [] ms = []).
      { unfold fan_out. induction ms as [|m ms IH]; [done|].
        cbn [flat_map]. rewrite IH. by destruct (msg_author_bot m). }
      by rewrite Hnil, app_nil_r.
    + by rewrite (run_pollMessages_dangling env key l s Hl Ho).
  - by rewrite (run_pollMessages_no_room env key s Hl).
Qed.

(** C9: [cleanup] of any agent identifier, registered or not, empties the
    handler set of the whole manager; a later poll tick of any room hands
    its messages to no handler. *)
Theorem cleanup_clears_every_handler (env : Env) agent s :
  let s' := (run env (cleanup agent) s).2 in
  messageHandlers s' = [] ∧
  ∀ (env' : Env) key,
    handler_calls (trace (run env' (pollMessages key) s').2) = handler_calls (trace s').
Proof.
  cbv zeta. rewrite run_cleanup. cbn [snd]. split; [done|].
  intros env' key. by apply poll_without_handlers.
Qed.

(** ** Relations kept by every segment of every call *)

Section Respects.

Variable R : St -> St -> Prop.
Hypothesis R_trans : ∀ s1 s2 s3, R s1 s2 -> R s2 s3 -> R s1 s3.
Hypothesis R_same : ∀ s s', agents s' = agents s -> R s s'.
Hypothesis R_delete : ∀ agent s, R s (upd_agents (delete agent) s).

Lemma R_refl s : R s s.
Proof. by apply R_same. Qed.

Lemma R_emits evs s : R s (emits evs s).
Proof. by apply R_same. Qed.

Lemma respects_bind {A B} (p : Proc A) (f : A -> Proc B) :
  respects R p -> (∀ a, respects R (f a)) -> respects R (p ≫= f).
Proof.
  intros Hp Hf. induction p as [a|e|X m k IH|X c k IH]; cbn.
  - apply Hf.
  - done.
  - intros s. destruct (Hp s) as [HR Hk]. split; [done|]. by apply IH.
  - intros r. apply IH, Hp.
Qed.

Lemma respects_try_catch {A} (p : Proc A) h :
  respects R p -> (∀ e, respects R (h e)) -> respects R (try_catch p h).
Proof.
  intros Hp Hh. induction p as [a|e|X m k IH|X c k IH]; cbn.
  - done.
  - apply Hh.
  - intros s. destruct (Hp s) as [HR Hk]. split; [done|]. by apply IH.
  - intros r. apply IH, Hp.
Qed.

Lemma respects_get {X : Set} (f : St -> X) : respects R (get f).
Proof. intros s. split; [apply R_refl|done]. Qed.

Lemma respects_modify f : (∀ s, R s (f s)) -> respects R (modify f).
Proof. intros Hf s. by split. Qed.

Lemma respects_await {X : Set} (c : Call X) : respects R (await c).
Proof. intros [x|e]; done. Qed.

Lemma respects_for_each {X} (l : list X) body :
  (∀ x, respects R (body x)) -> respects R (for_each l body).
Proof.
  intros Hb. induction l as [|x l IH]; [done|].
  rewrite for_each_cons. by apply respects_bind.
Qed.

Lemma respects_logger_error msg e : respects R (logger_error msg e).
Proof. apply respects_modify. intros s. apply R_emits. Qed.

Lemma advance_respects {A} (p : Proc A) s :
  respects R p ->
  R s (advance p s).2 ∧
  match (advance p s).1 with
  | Done _ => True
  | Waiting c k => ∀ r, respects R (k r)
  end.
Proof.
  revert s. induction p as [a|e|X m k IH|X c k IH]; intros s Hp; cbn.
  - split; [apply R_refl|done].
  - split; [apply R_refl|done].
  - destruct (Hp s) as [HR Hk]. destruct (m s) as [x s1]. cbn in *.
    destruct (IH x s1 Hk) as [HR' Hk']. split; [|done]. by eapply R_trans.
  - split; [apply R_emits|done].
Qed.

Lemma spawn_respects p w :
  respects R p ->
  Forall (pending_respects R) (inflight w) ->
  R (mgr w) (mgr (spawn p w)) ∧ Forall (pending_respects R) (inflight (spawn p w)).
Proof.
  intros Hp Hw. unfold spawn.
  destruct (advance_respects p (mgr w) Hp) as [HR Hk].
  destruct (advance p (mgr w)) as [[r|X c k] s']; cbn in *.
  - done.
  - split; [done|]. apply Forall_app_2; [done|]. by apply Forall_singleton.
Qed.

Lemma respects_sync {A} {X : Set} (m : St -> X * St) (k : X -> Proc A) :
  (∀ s, R s (m s).2) -> (∀ x, respects R (k x)) -> respects R (Sync m k).
Proof. intros Hm Hk s. by split. Qed.

Ltac respects_tac :=
  repeat first
    [ apply respects_bind | apply respects_try_catch | apply respects_get
    | apply respects_await | apply respects_for_each
    | apply respects_modify; intros; apply R_same; reflexivity
    | apply respects_sync; [intros; apply R_same; reflexivity|]
    | exact I
    | progress intros
    | match goal with
      | |- respects _ (match ?x with _ => _ end) => destruct x
      end ].

Lemma respects_addMessageHandler h : respects R (addMessageHandler h).
Proof. unfold addMessageHandler. respects_tac. Qed.

Lemma respects_removeMessageHandler h : respects R (removeMessageHandler h).
Proof. unfold removeMessageHandler. respects_tac. Qed.

Lemma respects_handleNewMessages channel messages :
  respects R (handleNewMessages channel messages).
Proof. unfold handleNewMessages, logger_error. respects_tac. Qed.

Lemma respects_pollMessages key : respects R (pollMessages key).
Proof.
  unfold pollMessages, read, write, logger_error.
  respects_tac; apply respects_handleNewMessages.
Qed.

Lemma respects_clear_polling state : respects R (clear_polling state).
Proof. unfold clear_polling, read, clearInterval. respects_tac. Qed.

Lemma respects_setActiveChannel agent channel :
  respects R (setActiveChannel agent channel).
Proof.
  unfold setActiveChannel, new_object, setInterval, write, logger_error.
  respects_tac; try apply respects_clear_polling; respects_tac.
Qed.

Lemma respects_sendMessage uuid agent content :
  respects R (sendMessage uuid agent content).
Proof. unfold sendMessage, read, write, logger_error. respects_tac. Qed.

Lemma respects_cleanup agent : respects R (cleanup agent).
Proof.
  unfold cleanup. respects_tac; try apply respects_clear_polling.
  apply respects_modify, R_delete.
Qed.

Lemma respects_serve uuid r : respects R (serve uuid r).
Proof.
  destruct r; cbn [serve].
  - apply respects_addMessageHandler.
  - apply respects_removeMessageHandler.
  - apply respects_setActiveChannel.
  - apply respects_bind; [apply respects_sendMessage|done].
  - apply respects_cleanup.
Qed.

(** Every step of the event loop keeps [R], and leaves in flight only
    calls that keep it. *)
Lemma step_respects uuid w w' :
  Forall (pending_respects R) (inflight w) ->
  step uuid w w' ->
  R (mgr w) (mgr w') ∧ Forall (pending_respects R) (inflight w').
Proof.
  intros Hw [a Ha]. destruct a as [r|t|i env|now]; cbn in Ha.
  - injection Ha as <-. apply spawn_respects; [apply respects_serve|done].
  - destruct (timers (mgr w) !! t) as [[key period]|]; [|done].
    injection Ha as <-. apply spawn_respects; [apply respects_pollMessages|done].
  - destruct (inflight w !! i) as [[X c k]|] eqn:Hi; [|done].
    injection Ha as <-.
    apply (spawn_respects (k (env X c)) {| mgr := mgr w; inflight := delete i (inflight w) |}).
    + apply (Forall_lookup_1 _ _ _ _ Hw Hi).
    + cbn. by apply Forall_delete.
  - case_decide; [|done]. injection Ha as <-. cbn. split; [|done]. by apply R_same.
Qed.

Lemma steps_respect uuid w w' :
  Forall (pending_respects R) (inflight w) ->
  rtc (step uuid) w w' ->
  R (mgr w) (mgr w') ∧ Forall (pending_respects R) (inflight w').
Proof.
  intros Hw Hsteps. induction Hsteps as [w|w w1 w2 Hstep Hsteps IH].
  - split; [apply R_refl|done].
  - destruct (step_respects uuid w w1 Hw Hstep) as [HR Hw1].
    destruct (IH Hw1) as [HR' Hw2]. split; [|done]. by eapply R_trans.
Qed.

End Respects.

(** ** Agents are only ever removed *)

Lemma no_new_agent_trans s1 s2 s3 :
  no_new_agent s1 s2 -> no_new_agent s2 s3 -> no_new_agent s1 s3.
Proof. unfold no_new_agent. auto. Qed.

Lemma no_new_agent_same s s' : agents s' = agents s -> no_new_agent s s'.
Proof. intros H agent. by rewrite H. Qed.

Lemma no_new_agent_delete agent s : no_new_agent s (upd_agents (delete agent) s).
Proof.
  intros a Ha. cbn. rewrite lookup_delete. by case_decide.
Qed.

Lemma boot_inflight runtime : inflight (boot runtime) = [].
Proof. reflexivity. Qed.

Lemma reachable_pending uuid runtime w :
  reachable uuid runtime w -> Forall (pending_respects no_new_agent) (inflight w).
Proof.
  intros Hw.
  apply (steps_respect no_new_agent no_new_agent_trans no_new_agent_same
           no_new_agent_delete uuid (boot runtime) w); [|done].
  by rewrite boot_inflight.
Qed.

Lemma advance_cleanup agent s :
  advance (cleanup agent) s =
  (Done (Ok tt), upd_messageHandlers (fun _ => [])
                   (upd_agents (delete agent)
                      (upd_roomStates (delete agent) (cancel_recorded agent s)))).
Proof.
  unfold cleanup, clear_polling, cancel_recorded, recorded_timer, room.
  cbv [advance bind mbind proc_bind get modify read clearInterval].
  destruct (roomStates s !! agent) as [l|]; cbn; [|done].
  destruct (heap s !! l) as [o|]; cbn; [|done].
  by destruct (pollingInterval o).
Qed.

Section AfterCleanup.

Variable stringToUuid : string -> string.

(** C8: in any world the manager can be in, [cleanup] removes the agent
    from the registry and from the room-state map, and from then on,
    whatever else happens, every [sendMessage] for that agent throws the
    not-found error and leaves the manager as it is. *)
Theorem cleanup_then_send_not_found runtime w agent :
  reachable stringToUuid runtime w ->
  let w1 := spawn (cleanup agent) w in
  agents (mgr w1) !! agent = None ∧
  roomStates (mgr w1) !! agent = None ∧
  ∀ w2, rtc (step stringToUuid) w1 w2 ->
    ∀ (env : Env) content,
      run env (sendMessage stringToUuid agent content) (mgr w2)
      = (Throw not_found, mgr w2).
Proof.
  intros Hw w1.
  assert (Hmgr : mgr w1 = upd_messageHandlers (fun _ => [])
                   (upd_agents (delete agent)
                      (upd_roomStates (delete agent) (cancel_recorded agent (mgr w))))).
  { unfold w1, spawn. by rewrite advance_cleanup. }
  assert (Hagent : agents (mgr w1) !! agent = None).
  { rewrite Hmgr. cbn. apply lookup_delete_eq. }
  split; [done|]. split.
  { rewrite Hmgr. cbn. apply lookup_delete_eq. }
  intros w2 Hsteps env content.
  assert (Hpending : Forall (pending_respects no_new_agent) (inflight w1)).
  { unfold w1, spawn. rewrite advance_cleanup. cbn.
    by eapply reachable_pending. }
  destruct (steps_respect no_new_agent no_new_agent_trans no_new_agent_same
              no_new_agent_delete stringToUuid w1 w2 Hpending Hsteps) as [Hkeep _].
  rewrite run_sendMessage. by rewrite (Hkeep agent Hagent).
Qed.

End AfterCleanup.

Lemma cleanup_then_send_not_found_booted :
  let w1 := spawn (cleanup "agent1") (boot agent1) in
  agents (mgr w1) !! "agent1" = None ∧
  roomStates (mgr w1) !! "agent1" = None ∧
  ∀ w2, rtc (step uuid_of) w1 w2 ->
    ∀ (env : Env) content,
      run env (sendMessage uuid_of "agent1" content) (mgr w2)
      = (Throw not_found, mgr w2).
Proof.
  apply (cleanup_then_send_not_found uuid_of agent1 (boot agent1) "agent1").
  apply rtc_refl.
Defined.

(** ** The timer invariant when calls do not overlap *)

Lemma recorded_timer_frame s s' :
  roomStates s' = roomStates s ->
  (∀ l, pollingInterval <$> heap s' !! l = pollingInterval <$> heap s !! l) ->
  ∀ key, recorded_timer s' key = recorded_timer s key.
Proof.
  intros Hr Hh key. unfold recorded_timer, room. rewrite Hr.
  destruct (roomStates s !! key) as [l|]; cbn; [|done].
  specialize (Hh l). destruct (heap s' !! l), (heap s !! l); cbn in *; congruence.
Qed.

Lemma well_formed_frame s s' :
  roomStates s' = roomStates s ->
  (∀ l, pollingInterval <$> heap s' !! l = pollingInterval <$> heap s !! l) ->
  timers s' = timers s ->
  nextLoc s' = nextLoc s ->
  well_formed s -> well_formed s'.
Proof.
  intros Hr Hh Ht Hn (HA & HB & HC). split; [|split].
  - intros t key period. rewrite Ht, (recorded_timer_frame s s' Hr Hh). apply HA.
  - intros key l. rewrite Hr, Hn. apply HB.
  - intros key key' l. rewrite Hr. apply HC.
Qed.

Lemma untimed_frame key s s' : timers s' = timers s -> untimed key s -> untimed key s'.
Proof. intros Ht H t period. rewrite Ht. apply H. Qed.

Lemma well_formed_emits evs s : well_formed s -> well_formed (emits evs s).
Proof. by apply well_formed_frame. Qed.

Lemma well_formed_cursor v l s :
  well_formed s -> well_formed (upd_heap (alter (set_lastMessageId v) l) s).
Proof.
  apply well_formed_frame; try done. intros l'. cbn. rewrite lookup_alter.
  case_decide; [subst|done]. by destruct (heap s !! l').
Qed.

Lemma well_formed_cancel key s :
  well_formed s ->
  well_formed (cancel_recorded key s) ∧ untimed key (cancel_recorded key s).
Proof.
  intros (HA & HB & HC). unfold cancel_recorded.
  destruct (recorded_timer s key) as [t0|] eqn:Hrec.
  - split; [split; [|done]|].
    + intros t k period Ht. cbn in Ht. rewrite lookup_delete in Ht.
      case_decide; [done|]. by apply (HA t k period).
    + intros t period Ht. cbn in Ht. rewrite lookup_delete in Ht.
      case_decide as Hne; [done|]. apply HA in Ht. congruence.
  - split; [done|]. intros t period Ht. apply HA in Ht. congruence.
Qed.

Lemma well_formed_rebind agent o s :
  well_formed s -> untimed agent s ->
  let s' := upd_roomStates (insert agent (nextLoc s)) (alloc o s) in
  well_formed s' ∧ untimed agent s' ∧
  roomStates s' !! agent = Some (nextLoc s) ∧ heap s' !! nextLoc s = Some o.
Proof.
  intros (HA & HB & HC) Hun s'. split; [split; [|split]|split; [done|split]].
  - intros t key period Ht. cbn in Ht.
    destruct (decide (key = agent)) as [->|Hne]; [by apply Hun in Ht|].
    specialize (HA t key period Ht). unfold recorded_timer, room in *. cbn.
    rewrite lookup_insert_ne by done.
    destruct (roomStates s !! key) as [l|] eqn:Hl; cbn in *; [|done].
    apply HB in Hl. rewrite lookup_insert_ne by lia. done.
  - intros key l. cbn. rewrite lookup_insert. case_decide.
    + intros [= <-]. lia.
    + intros Hl. apply HB in Hl. lia.
  - intros key key' l. cbn. rewrite !lookup_insert.
    repeat case_decide; subst; try done;
      try (intros [= <-] Hl; apply HB in Hl; lia);
      try (intros Hl [= <-]; apply HB in Hl; lia).
    apply HC.
  - cbn. apply lookup_insert_eq.
  - cbn. apply lookup_insert_eq.
Qed.

Lemma well_formed_install agent l o s :
  well_formed s -> untimed agent s ->
  roomStates s !! agent = Some l -> heap s !! l = Some o ->
  well_formed (upd_heap (alter (set_pollingInterval (Some (nextTimer s))) l)
                 (install_timer agent s)).
Proof.
  intros (HA & HB & HC) Hun Hl Ho. split; [|done].
  intros t key period Ht. cbn in Ht. rewrite lookup_insert in Ht.
  case_decide as Heq.
  - injection Ht as <- _. subst t. unfold recorded_timer, room. cbn.
    rewrite Hl. cbn. rewrite lookup_alter_eq, Ho. done.
  - destruct (decide (key = agent)) as [->|Hne]; [by apply Hun in Ht|].
    specialize (HA t key period Ht). unfold recorded_timer, room in *. cbn.
    destruct (roomStates s !! key) as [l'|] eqn:Hl'; cbn in *; [|done].
    rewrite lookup_alter_ne; [done|]. intros <-. by apply Hne, (HC key agent l).
Qed.

Lemma well_formed_forget agent s :
  well_formed s -> untimed agent s ->
  well_formed (upd_messageHandlers (fun _ => [])
                 (upd_agents (delete agent) (upd_roomStates (delete agent) s))).
Proof.
  intros (HA & HB & HC) Hun. split; [|split].
  - intros t key period Ht. cbn in Ht.
    destruct (decide (key = agent)) as [->|Hne]; [by apply Hun in Ht|].
    specialize (HA t key period Ht). unfold recorded_timer, room in *. cbn.
    by rewrite lookup_delete_ne.
  - intros key l. cbn. rewrite lookup_delete. case_decide; [done|apply HB].
  - intros key key' l. cbn. rewrite !lookup_delete.
    repeat case_decide; try done. apply HC.
Qed.

Lemma well_formed_setActiveChannel env agent channel s :
  well_formed s -> well_formed (run env (setActiveChannel agent channel) s).2.
Proof.
  intros Hwf. rewrite run_setActiveChannel. cbv zeta.
  destruct (well_formed_cancel agent s Hwf) as [Hwf1 Hun1].
  destruct (well_formed_rebind agent (fresh_room channel) _ Hwf1 Hun1)
    as (Hwf2 & Hun2 & Hl & Ho).
  set (s1 := cancel_recorded agent s) in *.
  set (s2 := upd_roomStates _ _) in *.
  destruct (env _ (RestGet _ _)) as [[|first rest]|e]; cbn [snd].
  - apply (well_formed_install agent (nextLoc s1) (fresh_room channel));
      first [done | by apply well_formed_emits].
  - apply (well_formed_install agent (nextLoc s1)
             (set_lastMessageId (Some (msg_id first)) (fresh_room channel)));
      first [ done
            | by apply well_formed_cursor, well_formed_emits
            | cbn [heap upd_heap emit emits]; by rewrite lookup_alter_eq, Ho ].
  - by apply well_formed_emits, well_formed_emits.
Qed.

Lemma well_formed_cleanup env agent s :
  well_formed s -> well_formed (run env (cleanup agent) s).2.
Proof.
  intros Hwf. rewrite run_cleanup. cbn [snd].
  destruct (well_formed_cancel agent s Hwf) as [Hwf1 Hun1].
  by apply well_formed_forget.
Qed.

Lemma well_formed_pollMessages env key s :
  well_formed s -> well_formed (run env (pollMessages key) s).2.
Proof.
  intros Hwf. destruct (roomStates s !! key) as [l|] eqn:Hl.
  - destruct (heap s !! l) as [o|] eqn:Ho.
    + rewrite (run_pollMessages env key l o s Hl Ho).
      destruct (truthy (channelId o)); [|done].
      destruct (env _ (Fetch _ _)) as [[|first rest]|e]; cbn [snd].
      * by apply well_formed_emits.
      * by apply well_formed_emits, well_formed_cursor, well_formed_emits.
      * by apply well_formed_emits, well_formed_emits.
    + by rewrite (run_pollMessages_dangling env key l s Hl Ho).
  - by rewrite (run_pollMessages_no_room env key s Hl).
Qed.

Lemma well_formed_sendMessage uuid env agent content s :
  well_formed s -> well_formed (run env (sendMessage uuid agent content) s).2.
Proof.
  intros Hwf. rewrite run_sendMessage.
  destruct (agents s !! agent) as [rt|]; [|done].
  destruct (resolve_channel s agent) as [ch|]; [|done]. cbv zeta.
  destruct (env _ (RestPost _ _)) as [response|e]; cbn [snd].
  - destruct (env _ (CreateMemory _ _)) as [[]|e]; cbn [snd].
    + destruct (roomStates s !! agent).
      * by apply well_formed_cursor, well_formed_emits, well_formed_emits.
      * by apply well_formed_emits, well_formed_emits.
    + by apply well_formed_emits, well_formed_emits, well_formed_emits.
  - by apply well_formed_emits, well_formed_emits.
Qed.

Lemma well_formed_serve uuid env r s :
  well_formed s -> well_formed (run env (serve uuid r) s).2.
Proof.
  intros Hwf. destruct r; cbn [serve].
  - by apply (well_formed_frame s).
  - by apply (well_formed_frame s).
  - by apply well_formed_setActiveChannel.
  - rewrite run_bind.
    pose proof (well_formed_sendMessage uuid env agent content s Hwf) as H.
    by destruct (run env (sendMessage uuid agent content) s) as [[m|e] s'].
  - by apply well_formed_cleanup.
Qed.

Lemma boot_state runtime :
  timers (mgr (boot runtime)) = <[1%positive := ("dm", POLLING_INTERVAL)]> ∅ ∧
  roomStates (mgr (boot runtime)) = <["dm" := 0]> ∅ ∧
  heap (mgr (boot runtime))
    = <[0 := set_pollingInterval (Some 1%positive) (fresh_room "202880968556544000")]> ∅ ∧
  nextLoc (mgr (boot runtime)) = 1 ∧
  agents (mgr (boot runtime)) = <[agentId runtime := runtime]> ∅ ∧
  currentDMChannel (mgr (boot runtime)) = Some "202880968556544000".
Proof. repeat split; reflexivity. Qed.

Lemma well_formed_boot runtime : well_formed (mgr (boot runtime)).
Proof.
  destruct (boot_state runtime) as (Ht & Hr & Hh & Hn & _).
  split; [|split].
  - intros t key period. unfold recorded_timer, room. rewrite Ht, Hr, Hh.
    intros [[<- [= <- <-]]|[_ H]]%lookup_insert_Some; done.
  - intros key l. rewrite Hr, Hn.
    intros [[<- <-]|[_ H]]%lookup_insert_Some; [lia|done].
  - intros key key' l. rewrite Hr.
    intros [[<- <-]|[_ H]]%lookup_insert_Some; [|done].
    intros [[<- _]|[_ H]]%lookup_insert_Some; done.
Qed.

(** When no two calls overlap, the manager keeps at most one active timer
    per room key. *)
Lemma sequential_one_timer_per_key uuid runtime s :
  rtc (seq_step uuid) (mgr (boot runtime)) s ->
  ∀ t t' key period period',
    timers s !! t = Some (key, period) ->
    timers s !! t' = Some (key, period') ->
    t = t'.
Proof.
  intros Hsteps.
  assert (Hwf : well_formed s).
  { apply (rtc_ind_r (R := seq_step uuid) (fun s => well_formed s) (mgr (boot runtime)));
      [apply well_formed_boot| |exact Hsteps].
    intros s0 s1 _ Hstep IH. destruct Hstep as [env r s0|env t key period s0 _|now s0].
    - by apply well_formed_serve.
    - by apply well_formed_pollMessages.
    - by apply (well_formed_frame s0). }
  destruct Hwf as (HA & _ & _). intros t t' key period period' Ht Ht'.
  apply HA in Ht. apply HA in Ht'. congruence.
Qed.

(** ** Overlapping calls *)

Lemma perform_all_steps uuid schedule w w' :
  perform_all uuid schedule w = Some w' -> rtc (step uuid) w w'.
Proof.
  revert w. induction schedule as [|a schedule IH]; intros w H; cbn in H.
  - injection H as <-. apply rtc_refl.
  - destruct (perform uuid a w) as [w1|] eqn:Ha; [|done].
    eapply rtc_l; [by exists a|by apply IH].
Qed.

(** C6 fails on the code: two [setActiveChannel] calls for one agent, the
    second made while the seed fetch of the first is still awaited, leave
    two active timers polling that agent's room.  The first call finds no
    timer to clear, the second finds the state of the first without a handle
    yet, and each installs its timer once its own fetch settles; the handle
    of the first is stored in a room state that is no longer in the map. *)
Theorem overlapping_switches_leave_two_timers :
  perform_all uuid_of overlapping_switches (boot agent1) = Some after_overlap ∧
  reachable uuid_of agent1 after_overlap ∧
  inflight after_overlap = [] ∧
  timers (mgr after_overlap) !! 2%positive = Some ("agent1", POLLING_INTERVAL) ∧
  timers (mgr after_overlap) !! 3%positive = Some ("agent1", POLLING_INTERVAL) ∧
  length (timers_for (mgr after_overlap) "agent1") = 2 ∧
  recorded_timer (mgr after_overlap) "agent1" = Some 3%positive.
Proof.
  assert (H : perform_all uuid_of overlapping_switches (boot agent1) = Some after_overlap).
  { vm_compute. reflexivity. }
  split; [exact H|]. split; [exact (perform_all_steps _ _ _ _ H)|].
  vm_compute. repeat split; reflexivity.
Qed.

(** * Further properties *)

(** ** Ticks that change nothing *)

(** X1: a poll tick for a key with no room state, or whose room state has
    an empty channel identifier, returns normally and leaves the manager and
    the trace as they are: no request is sent. *)
Theorem poll_without_channel_is_silent (env : Env) key s :
  truthy_opt (channelId <$> room s key) = false ->
  run env (pollMessages key) s = (Ok tt, s).
Proof.
  unfold room. intros H. destruct (roomStates s !! key) as [l|] eqn:Hl.
  - cbn in H. destruct (heap s !! l) as [o|] eqn:Ho; cbn in H.
    + rewrite (run_pollMessages env key l o s Hl Ho). by rewrite H.
    + by apply run_pollMessages_dangling with l.
  - by apply run_pollMessages_no_room.
Qed.

Lemma poll_without_channel_is_silent_cleaned :
  run (serving [msg1]) (pollMessages "dm")
      (run (serving []) (cleanup "dm") booted).2
  = (Ok tt, (run (serving []) (cleanup "dm") booted).2).
Proof.
  apply (poll_without_channel_is_silent (serving [msg1]) "dm"
           (run (serving []) (cleanup "dm") booted).2).
  reflexivity.
Defined.

(** X2: when the fetch of a poll tick rejects, or answers the empty list,
    the tick returns normally, no handler is invoked, and the room states,
    the room-state map and the timers are untouched, so the next tick of the
    same timer polls again; a rejection is written to the error log. *)
Theorem poll_failure_is_swallowed (env : Env) key l o s :
  roomStates s !! key = Some l ->
  heap s !! l = Some o ->
  truthy (channelId o) = true ->
  fetched env (rest_token_member s) (channelId o) = [] ->
  ∃ s', run env (pollMessages key) s = (Ok tt, s') ∧
        heap s' = heap s ∧ roomStates s' = roomStates s ∧ timers s' = timers s ∧
        handler_calls (trace s') = handler_calls (trace s) ∧
        logged_errors (trace s')
          = logged_errors (trace s) ++
            match env _ (Fetch (poll_url (channelId o))
                            (poll_headers (rest_token_member s))) with
            | Ok _ => []
            | Throw e => [("Error polling messages:", e)]
            end.
Proof.
  intros Hl Ho Hch Hf. rewrite (run_pollMessages env key l o s Hl Ho), Hch.
  unfold fetched in Hf.
  destruct (env _ (Fetch _ _)) as [[|first rest]|e]; [|done|]; eexists;
    (split; [done|]); do 3 (split; [done|]); cbn;
    by rewrite ?handler_calls_app, ?logged_errors_app, ?app_nil_r.
Qed.

Lemma poll_failure_is_swallowed_offline :
  ∃ s', run offline (pollMessages "dm") booted = (Ok tt, s') ∧
        heap s' = heap booted ∧ roomStates s' = roomStates booted ∧
        timers s' = timers booted ∧
        handler_calls (trace s') = handler_calls (trace booted) ∧
        logged_errors (trace s')
          = logged_errors (trace booted) ++ [("Error polling messages:", Error "network")].
Proof.
  apply (poll_failure_is_swallowed offline "dm" 0
           {| channelId := "202880968556544000"; lastMessageId := None;
              voiceConnection := None; pollingInterval := Some 1%positive |} booted);
    reflexivity.
Defined.

Lemma fan_out_bots hs ms :
  Forall (fun m => msg_author_bot m = true) ms -> fan_out hs ms = [].
Proof.
  unfold fan_out. induction 1 as [|m ms Hm _ IH]; [done|].
  cbn [flat_map]. by rewrite Hm, IH.
Qed.

(** X3: a batch in which every message is written by a bot reaches no
    handler, yet the tick still moves the room's cursor to the first item of
    the batch. *)
Theorem bot_batch_moves_cursor_only (env : Env) key l o first rest s :
  roomStates s !! key = Some l ->
  heap s !! l = Some o ->
  truthy (channelId o) = true ->
  env _ (Fetch (poll_url (channelId o)) (poll_headers (rest_token_member s)))
  = Ok (first :: rest) ->
  Forall (fun m => msg_author_bot m = true) (first :: rest) ->
  ∃ s', run env (pollMessages key) s = (Ok tt, s') ∧
        handler_calls (trace s') = handler_calls (trace s) ∧
        logged_errors (trace s') = logged_errors (trace s) ∧
        cursor s' key = Some (msg_id first).
Proof.
  intros Hl Ho Hch Hfetch Hbots.
  rewrite (run_pollMessages env key l o s Hl Ho), Hch, Hfetch.
  eexists. split; [done|].
  assert (Hrev : Forall (fun m => msg_author_bot m = true) (rev (first :: rest))).
  { apply Forall_forall. intros m Hm. apply list_elem_of_In, in_rev in Hm.
    by apply (proj1 (Forall_forall _ _) Hbots), list_elem_of_In. }
  split; [|split].
  - cbn [trace emits emit upd_heap].
    rewrite !handler_calls_app, handler_calls_batch, (fan_out_bots _ _ Hrev).
    cbn. by rewrite !app_nil_r.
  - cbn [trace emits emit upd_heap].
    rewrite !logged_errors_app, logged_errors_batch, (fan_out_bots _ _ Hrev).
    cbn. by rewrite !app_nil_r.
  - unfold emit. by eapply cursor_after_write.
Qed.

Lemma bot_batch_moves_cursor_only_booted :
  ∃ s', run (serving [msg2]) (pollMessages "dm") booted = (Ok tt, s') ∧
        handler_calls (trace s') = handler_calls (trace booted) ∧
        logged_errors (trace s') = logged_errors (trace booted) ∧
        cursor s' "dm" = Some "2".
Proof.
  apply (bot_batch_moves_cursor_only (serving [msg2]) "dm" 0
           {| channelId := "202880968556544000"; lastMessageId := None;
              voiceConnection := None; pollingInterval := Some 1%positive |}
           msg2 [] booted); try reflexivity.
  repeat constructor.
Defined.

(** ** The handler set *)

Lemma upd_messageHandlers_same f s :
  f (messageHandlers s) = messageHandlers s -> upd_messageHandlers f s = s.
Proof. intros H. destruct s. unfold upd_messageHandlers. cbn in *. by rewrite H. Qed.

(** X4: [addMessageHandler] has the meaning of [Set.add]: the handler is in
    the set afterwards, the handlers already there stay, in their order
    and in front, and adding the same handler again changes nothing, so a
    handler registered twice is still invoked once per message. *)
Theorem addMessageHandler_is_idempotent (env : Env) h s :
  let s1 := (run env (addMessageHandler h) s).2 in
  h ∈ messageHandlers s1 ∧
  messageHandlers s `prefix_of` messageHandlers s1 ∧
  run env (addMessageHandler h) s1 = (Ok tt, s1) ∧
  ∀ ms, fan_out (messageHandlers (run env (addMessageHandler h) s1).2) ms
        = fan_out (messageHandlers s1) ms.
Proof.
  cbv zeta. unfold addMessageHandler. rewrite !run_modify. cbn [snd].
  assert (Hin : h ∈ messageHandlers
            (upd_messageHandlers
               (fun hs => if decide (h ∈ hs) then hs else hs ++ [h]) s)).
  { cbn. case_decide; [done|]. apply elem_of_app. right. by apply list_elem_of_singleton. }
  assert (Hsame : upd_messageHandlers
            (fun hs => if decide (h ∈ hs) then hs else hs ++ [h])
            (upd_messageHandlers
               (fun hs => if decide (h ∈ hs) then hs else hs ++ [h]) s)
          = upd_messageHandlers
              (fun hs => if decide (h ∈ hs) then hs else hs ++ [h]) s).
  { apply upd_messageHandlers_same. by rewrite decide_True. }
  split; [done|]. split.
  - cbn. case_decide; [done|]. by apply prefix_app_r.
  - rewrite Hsame. done.
Qed.

Lemma handlers_filter (P : MessageHandler -> Prop) `{∀ h, Decision (P h)}
    (m : APIMessage) hs :
  map (fun h => (h, m)) (filter P hs)
  = filter (fun c : MessageHandler * APIMessage => P c.1) (map (fun h => (h, m)) hs).
Proof.
  induction hs as [|h hs IH]; [done|].
  cbn [map]. rewrite !filter_cons. cbn [fst].
  destruct (decide (P h)); cbn [map]; by rewrite IH.
Qed.

Lemma fan_out_filter (P : MessageHandler -> Prop) `{∀ h, Decision (P h)} hs ms :
  fan_out (filter P hs) ms
  = filter (fun c : MessageHandler * APIMessage => P c.1) (fan_out hs ms).
Proof.
  unfold fan_out. induction ms as [|m ms IH]; [done|].
  cbn [flat_map]. rewrite filter_app, IH.
  destruct (msg_author_bot m); [done|]. by rewrite handlers_filter.
Qed.

(** X5: after [removeMessageHandler] the handler is out of the set, and the
    invocations a batch gives rise to are the ones it gave before with those
    of the removed handler taken out: the other handlers keep their order and
    their messages. *)
Theorem removeMessageHandler_drops_its_calls (env : Env) h s :
  let s1 := (run env (removeMessageHandler h) s).2 in
  (h ∉ messageHandlers s1) ∧
  ∀ ms, fan_out (messageHandlers s1) ms
        = filter (fun c => c.1 ≠ h) (fan_out (messageHandlers s) ms).
Proof.
  cbv zeta. unfold removeMessageHandler. rewrite run_modify. cbn [snd]. split.
  - cbn. rewrite list_elem_of_filter. by intros [? _].
  - intros ms. cbn. exact (fan_out_filter (fun h' => h' ≠ h) (messageHandlers s) ms).
Qed.

(** X6: adding a handler that was not registered and removing it again
    gives back the manager as it was. *)
Theorem add_then_remove_handler (env : Env) h s :
  h ∉ messageHandlers s ->
  run env (addMessageHandler h;; removeMessageHandler h) s = (Ok tt, s).
Proof.
  intros Hh. rewrite run_bind. unfold addMessageHandler, removeMessageHandler.
  rewrite !run_modify. f_equal.
  destruct s as [tok ags rooms hs dm hp nl tms nt clk tr]. unfold upd_messageHandlers.
  cbn in *. f_equal. rewrite decide_False by done. rewrite filter_app.
  rewrite filter_cons, decide_False by (by intros ?).
  rewrite filter_nil, app_nil_r.
  induction hs as [|h' hs IH]; [done|].
  apply not_elem_of_cons in Hh as [Hne Hh].
  rewrite filter_cons, decide_True by done. by rewrite IH.
Qed.

Lemma add_then_remove_handler_booted :
  run (serving []) (addMessageHandler 8;; removeMessageHandler 8) booted = (Ok tt, booted).
Proof.
  apply (add_then_remove_handler (serving []) 8 booted).
  vm_compute. intros H. apply list_elem_of_In in H. cbn in H. intuition discriminate.
Defined.

(** ** More on cleanup and on switching *)

Lemma cancel_recorded_absent key s :
  roomStates s !! key = None -> cancel_recorded key s = s.
Proof. intros H. unfold cancel_recorded, recorded_timer, room. by rewrite H. Qed.

(** X7: [cleanup] of an agent that was just cleaned up changes nothing: the
    second call finds no room state, clears no timer, and deletes and clears
    what is already gone. *)
Theorem cleanup_is_idempotent (env : Env) agent s :
  let s1 := (run env (cleanup agent) s).2 in
  run env (cleanup agent) s1 = (Ok tt, s1).
Proof.
  cbv zeta. rewrite !run_cleanup. cbn [snd]. f_equal.
  rewrite cancel_recorded_absent by (cbn; apply lookup_delete_eq).
  unfold upd_messageHandlers, upd_agents, upd_roomStates. cbn.
  by rewrite !delete_delete_eq.
Qed.

(** X8: [cleanup] of one agent leaves the registry entry, the room state,
    the cursor and the recorded timer handle of every other key as they
    were. *)
Theorem cleanup_spares_other_keys (env : Env) agent other s :
  other ≠ agent ->
  let s1 := (run env (cleanup agent) s).2 in
  agents s1 !! other = agents s !! other ∧
  room s1 other = room s other ∧
  cursor s1 other = cursor s other ∧
  recorded_timer s1 other = recorded_timer s other.
Proof.
  intros Hne. cbv zeta. rewrite run_cleanup. cbn [snd].
  assert (Hroom : room (upd_messageHandlers (fun _ => [])
                     (upd_agents (delete agent)
                        (upd_roomStates (delete agent) (cancel_recorded agent s)))) other
                  = room s other).
  { unfold room. cbn. rewrite lookup_delete_ne by done.
    unfold cancel_recorded. by destruct (recorded_timer s agent). }
  split; [|split; [done|split]].
  - cbn. rewrite lookup_delete_ne by done.
    unfold cancel_recorded. by destruct (recorded_timer s agent).
  - unfold cursor. by rewrite Hroom.
  - unfold recorded_timer. by rewrite Hroom.
Qed.

Lemma cleanup_spares_other_keys_switched :
  let s1 := (run (serving []) (cleanup "agent1") switched).2 in
  agents s1 !! "dm" = agents switched !! "dm" ∧
  room s1 "dm" = room switched "dm" ∧
  cursor s1 "dm" = cursor switched "dm" ∧
  recorded_timer s1 "dm" = recorded_timer switched "dm".
Proof.
  apply (cleanup_spares_other_keys (serving []) "agent1" "dm" switched).
  intros H. discriminate H.
Defined.

Section SwitchThenSend.

Variable stringToUuid : string -> string.

Lemma sendMessage_posts env agent content s rt ch :
  agents s !! agent = Some rt ->
  resolve_channel s agent = Some ch ->
  ∃ rest, trace (run env (sendMessage stringToUuid agent content) s).2
          = trace s ++ EvCall (RestPost (Routes_channelMessages ch) (post_body content)) :: rest.
Proof.
  intros Hrt Hch. rewrite run_sendMessage, Hrt, Hch. cbv zeta.
  destruct (env _ (RestPost _ _)) as [response|e].
  - destruct (env _ (CreateMemory _ _)) as [[]|e].
    + destruct (roomStates s !! agent); cbn; rewrite <- app_assoc; by eexists.
    + cbn. rewrite <- !app_assoc. by eexists.
  - cbn. rewrite <- !app_assoc. by eexists.
Qed.

Lemma room_after_setActiveChannel env agent channel s :
  channelId <$> room (run env (setActiveChannel agent channel) s).2 agent = Some channel.
Proof.
  rewrite run_setActiveChannel. cbv zeta. unfold room.
  destruct (env _ (RestGet _ _)) as [[|first rest]|e]; cbn;
    rewrite lookup_insert_eq; cbn;
    rewrite ?lookup_alter_eq, lookup_insert_eq; done.
Qed.

Lemma agents_after_setActiveChannel env agent channel s :
  agents (run env (setActiveChannel agent channel) s).2 = agents s.
Proof.
  rewrite run_setActiveChannel. cbv zeta.
  destruct (env _ (RestGet _ _)) as [[|first rest]|e]; cbn;
    unfold cancel_recorded; by destruct (recorded_timer s agent).
Qed.

(** X9: once [setActiveChannel] has bound an agent to a non-empty channel,
    whether its seed fetch succeeded or failed, [sendMessage] for that agent
    resolves to that channel, not to the default direct-message channel:
    for a registered agent the next request is the POST to that channel. *)
Theorem switch_then_send_targets_channel (env env' : Env) agent channel content s rt :
  truthy channel = true ->
  agents s !! agent = Some rt ->
  let s1 := (run env (setActiveChannel agent channel) s).2 in
  resolve_channel s1 agent = Some channel ∧
  ∃ rest, trace (run env' (sendMessage stringToUuid agent content) s1).2
          = trace s1 ++
            EvCall (RestPost (Routes_channelMessages channel) (post_body content)) :: rest.
Proof.
  intros Hch Hrt s1.
  assert (Hres : resolve_channel s1 agent = Some channel).
  { unfold resolve_channel, js_or, s1. rewrite room_after_setActiveChannel.
    cbn [truthy_opt]. rewrite Hch. cbn [truthy_opt]. by rewrite Hch. }
  split; [done|]. apply sendMessage_posts with rt; [|done].
  unfold s1. by rewrite agents_after_setActiveChannel.
Qed.

End SwitchThenSend.

Lemma switch_then_send_targets_channel_offline :
  let s1 := (run offline (setActiveChannel "agent1" "general") booted).2 in
  resolve_channel s1 "agent1" = Some "general" ∧
  ∃ rest, trace (run (serving []) (sendMessage uuid_of "agent1" hello) s1).2
          = trace s1 ++
            EvCall (RestPost (Routes_channelMessages "general") (post_body hello)) :: rest.
Proof.
  apply (switch_then_send_targets_channel uuid_of offline (serving [])
           "agent1" "general" hello booted agent1); reflexivity.
Defined.

(** ** Calls across their [await] points *)

Lemma advance_ret {A} (a : A) s : advance (Ret a) s = (Done (Ok a), s).
Proof. done. Qed.

Lemma advance_mret {A} (a : A) s : advance (mret a) s = (Done (Ok a), s).
Proof. done. Qed.

Lemma advance_raise {A} e s : advance (Raise e : Proc A) s = (Done (Throw e), s).
Proof. done. Qed.

Lemma advance_get {X : Set} (f : St -> X) s : advance (get f) s = (Done (Ok (f s)), s).
Proof. done. Qed.

Lemma advance_modify f s : advance (modify f) s = (Done (Ok tt), f s).
Proof. done. Qed.

Lemma advance_read {X : Set} l (f : DiscordRoomState -> X) s :
  advance (read l f) s = (Done (Ok (f <$> heap s !! l)), s).
Proof. done. Qed.

Lemma advance_write l f s :
  advance (write l f) s = (Done (Ok tt), upd_heap (alter f l) s).
Proof. done. Qed.

Lemma advance_logger_error msg e s :
  advance (logger_error msg e) s = (Done (Ok tt), emit (EvError msg e) s).
Proof. done. Qed.

Lemma advance_new_object o s :
  advance (new_object o) s = (Done (Ok (nextLoc s)), alloc o s).
Proof. done. Qed.

Lemma advance_setInterval key s :
  advance (setInterval key) s = (Done (Ok (nextTimer s)), install_timer key s).
Proof. done. Qed.

Lemma advance_await {X : Set} (c : Call X) s :
  advance (await c) s
  = (Waiting c (fun r => match r with Ok x => Ret x | Throw e => Raise e end),
     emit (EvCall c) s).
Proof. done. Qed.

Lemma advance_bind {A B} (p : Proc A) (f : A -> Proc B) s :
  advance (p ≫= f) s =
  match advance p s with
  | (Done (Ok a), s') => advance (f a) s'
  | (Done (Throw e), s') => (Done (Throw e), s')
  | (Waiting c k, s') => (Waiting c (fun r => k r ≫= f), s')
  end.
Proof.
  revert s. induction p as [a|e|X m k IH|X c k IH]; intros s.
  - done.
  - done.
  - change (advance (Sync m k ≫= f) s)
      with (let '(x, s') := m s in advance (k x ≫= f) s').
    change (advance (Sync m k) s) with (let '(x, s') := m s in advance (k x) s').
    destruct (m s) as [x s']. apply IH.
  - done.
Qed.

Lemma advance_try_catch {A} (p : Proc A) h s :
  advance (try_catch p h) s =
  match advance p s with
  | (Done (Ok a), s') => (Done (Ok a), s')
  | (Done (Throw e), s') => advance (h e) s'
  | (Waiting c k, s') => (Waiting c (fun r => try_catch (k r) h), s')
  end.
Proof.
  revert s. induction p as [a|e|X m k IH|X c k IH]; intros s.
  - done.
  - done.
  - change (advance (try_catch (Sync m k) h) s)
      with (let '(x, s') := m s in advance (try_catch (k x) h) s').
    change (advance (Sync m k) s) with (let '(x, s') := m s in advance (k x) s').
    destruct (m s) as [x s']. apply IH.
  - done.
Qed.

(** Push [advance] through the monadic structure of a method body. *)
Ltac advance_all :=
  repeat (first
    [ rewrite advance_bind | rewrite advance_try_catch | rewrite advance_get
    | rewrite advance_modify | rewrite advance_await | rewrite advance_ret
    | rewrite advance_mret | rewrite advance_raise | rewrite advance_read
    | rewrite advance_write | rewrite advance_logger_error
    | rewrite advance_new_object | rewrite advance_setInterval ];
    cbv beta iota zeta).

Section AcrossAwaits.

Variable stringToUuid : string -> string.

(** X10: [sendMessage] for a registered agent with a resolved channel
    suspends twice, at the POST and then at the memory store.  Whatever the
    other calls did to the manager in between, a rejection at either point
    is logged and thrown on with nothing else changed, the record is stamped
    with the clock read when the POST settled, and the cursor is written
    only once the store has accepted the record, through the room state the
    agent had when the call began. *)
Theorem sendMessage_across_awaits agent content s rt ch :
  agents s !! agent = Some rt ->
  resolve_channel s agent = Some ch ->
  ∃ k1,
    advance (sendMessage stringToUuid agent content) s
    = (Waiting (RestPost (Routes_channelMessages ch) (post_body content)) k1,
       emit (EvCall (RestPost (Routes_channelMessages ch) (post_body content))) s) ∧
    (∀ e s2, advance (k1 (Throw e)) s2
             = (Done (Throw e), emit (EvError "Error sending Discord message:" e) s2)) ∧
    ∀ response s2,
      let memory := make_memory stringToUuid rt ch content response (clock s2) in
      ∃ k2,
        advance (k1 (Ok response)) s2
        = (Waiting (CreateMemory (agentId rt) memory) k2,
           emit (EvCall (CreateMemory (agentId rt) memory)) s2) ∧
        (∀ e s3, advance (k2 (Throw e)) s3
                 = (Done (Throw e), emit (EvError "Error sending Discord message:" e) s3)) ∧
        (∀ s3, advance (k2 (Ok tt)) s3
               = (Done (Ok memory),
                  match roomStates s !! agent with
                  | Some l => upd_heap (alter (set_lastMessageId (Some (msg_id response))) l) s3
                  | None => s3
                  end)).
Proof.
  intros Hrt Hch. unfold sendMessage. advance_all.
  assert (Hread : advance match roomStates s !! agent with
                          | Some st => read st channelId
                          | None => Ret None
                          end s
                  = (Done (Ok (channelId <$> room s agent)), s)).
  { unfold room. destruct (roomStates s !! agent); by advance_all. }
  rewrite Hread. clear Hread. advance_all. rewrite Hrt.
  unfold resolve_channel in Hch.
  destruct (js_or (channelId <$> room s agent) (currentDMChannel s)) as [ch'|]; [|done].
  cbn [truthy_opt] in Hch. destruct (truthy ch') eqn:Htr; [|done].
  injection Hch as ->. advance_all.
  eexists. split; [reflexivity|]. split.
  - intros e s2. cbv beta. advance_all. done.
  - intros response s2. cbv beta zeta. advance_all.
    eexists. split; [reflexivity|]. split.
    + intros e s3. cbv beta. advance_all. done.
    + intros s3. cbv beta. advance_all.
      destruct (roomStates s !! agent); by advance_all.
Qed.

End AcrossAwaits.

Lemma sendMessage_across_awaits_switched :
  ∃ k1,
    advance (sendMessage uuid_of "agent1" hello) switched
    = (Waiting (RestPost (Routes_channelMessages "general") (post_body hello)) k1,
       emit (EvCall (RestPost (Routes_channelMessages "general") (post_body hello))) switched).
Proof.
  destruct (sendMessage_across_awaits uuid_of "agent1" hello switched agent1 "general")
    as (k1 & H & _); [reflexivity|reflexivity|].
  exists k1. exact H.
Defined.

Lemma advance_clear_polling key s :
  advance (clear_polling (roomStates s !! key)) s = (Done (Ok tt), cancel_recorded key s).
Proof.
  unfold clear_polling, cancel_recorded, recorded_timer, room.
  destruct (roomStates s !! key) as [l|]; cbn; [|done].
  advance_all. destruct (heap s !! l) as [o|]; cbn; [|done].
  destruct (pollingInterval o); [|done]. unfold clearInterval. by advance_all.
Qed.

Lemma advance_handleNewMessages channel messages s :
  match head (fan_out (messageHandlers s) messages) with
  | None => advance (handleNewMessages channel messages) s = (Done (Ok tt), s)
  | Some (h, m) =>
      ∃ k, advance (handleNewMessages channel messages) s
           = (Waiting (Handler h m) k, emit (EvCall (Handler h m)) s)
  end.
Proof.
  unfold handleNewMessages.
  set (body := fun message : APIMessage => _).
  induction messages as [|m ms IH]; [done|].
  change (fan_out (messageHandlers s) (m :: ms))
    with ((if msg_author_bot m then [] else map (fun h => (h, m)) (messageHandlers s))
          ++ fan_out (messageHandlers s) ms).
  change (for_each (m :: ms) body) with (body m ≫= fun _ => for_each ms body).
  rewrite advance_bind.
  assert (Hskip : msg_author_bot m = true ∨ messageHandlers s = [] ->
                  advance (body m) s = (Done (Ok tt), s)).
  { intros Hcase. unfold body. destruct (msg_author_bot m); [done|].
    destruct Hcase as [|Hhs]; [done|]. rewrite advance_bind, advance_get. cbv beta iota.
    by rewrite Hhs. }
  destruct (msg_author_bot m) eqn:Hbot.
  - rewrite Hskip by (by left). exact IH.
  - destruct (messageHandlers s) as [|h hs] eqn:Hhs.
    + rewrite Hskip by (by right). exact IH.
    + clear Hskip. cbn [map app head]. unfold body at 1. rewrite Hbot.
      rewrite advance_bind, advance_get. cbv beta iota. rewrite Hhs.
      change (for_each (h :: hs) ?b) with (b h ≫= fun _ => for_each hs b).
      rewrite advance_bind, advance_try_catch, advance_await. by eexists.
Qed.

(** X11: a poll tick first suspends at its fetch, whose Authorization header
    is [Bot undefined].  Whatever the manager has become when the fetch
    settles, the tick goes on with what it read before.  A rejection is only
    logged and an empty list changes nothing.  With a batch, the cursor is
    written to the room state object found when the tick began, even if the
    key has since been bound to another object or removed; then the tick is
    over when the batch holds no message of a user or no handler is
    registered at that time, and otherwise it suspends again, at the call of
    the handler first registered at that time on the oldest message of a
    user. *)
Theorem pollMessages_across_await key l o s :
  roomStates s !! key = Some l ->
  heap s !! l = Some o ->
  truthy (channelId o) = true ->
  ∃ k,
    advance (pollMessages key) s
    = (Waiting (Fetch (poll_url (channelId o))
                  [("Authorization", "Bot undefined"); ("Content-Type", "application/json")]) k,
       emit (poll_request s o) s) ∧
    (∀ e s2, advance (k (Throw e)) s2
             = (Done (Ok tt), emit (EvError "Error polling messages:" e) s2)) ∧
    (∀ s2, advance (k (Ok [])) s2 = (Done (Ok tt), s2)) ∧
    (∀ first rest s2,
       let s3 := upd_heap (alter (set_lastMessageId (Some (msg_id first))) l) s2 in
       match head (fan_out (messageHandlers s2) (rev (first :: rest))) with
       | None => advance (k (Ok (first :: rest))) s2 = (Done (Ok tt), s3)
       | Some (h, m) =>
           ∃ k', advance (k (Ok (first :: rest))) s2
                 = (Waiting (Handler h m) k', emit (EvCall (Handler h m)) s3)
       end).
Proof.
  intros Hl Ho Hch. unfold pollMessages. advance_all. rewrite Hl. advance_all.
  rewrite Ho. cbn [fmap option_fmap option_map truthy_opt default]. rewrite Hch.
  advance_all. eexists. split; [reflexivity|]. split; [|split].
  - intros e s2. cbv beta. by advance_all.
  - intros s2. cbv beta. by advance_all.
  - intros first rest s2.
    set (s3 := upd_heap (alter (set_lastMessageId (Some (msg_id first))) l) s2).
    cbv beta. advance_all. fold s3.
    pose proof (advance_handleNewMessages
                  (default "" (channelId <$> heap s3 !! l)) (rev (first :: rest)) s3) as H.
    change (messageHandlers s3) with (messageHandlers s2) in H.
    destruct (head (fan_out (messageHandlers s2) (rev (first :: rest)))) as [[h m]|].
    + destruct H as [k' H]. rewrite H. by eexists.
    + by rewrite H.
Qed.

Lemma pollMessages_across_await_booted :
  ∃ k,
    advance (pollMessages "dm") booted
    = (Waiting (Fetch (poll_url "202880968556544000")
                  [("Authorization", "Bot undefined"); ("Content-Type", "application/json")]) k,
       emit (EvCall (Fetch (poll_url "202880968556544000")
                       [("Authorization", "Bot undefined");
                        ("Content-Type", "application/json")])) booted).
Proof.
  destruct (pollMessages_across_await "dm" 0
              {| channelId := "202880968556544000"; lastMessageId := None;
                 voiceConnection := None; pollingInterval := Some 1%positive |} booted)
    as (k & H & _); [reflexivity|reflexivity|reflexivity|].
  exists k. exact H.
Defined.

(** X12: [setActiveChannel] suspends once, at the seed fetch, after it has
    cleared the recorded timer and bound the agent to a fresh room state.
    When the fetch settles with a list, the call installs its timer for the
    agent in the manager as it then is and stores the handle in the room
    state it created itself: it does not look at the map again, so the timer
    is installed also when that room state has meanwhile been replaced or
    the agent cleaned up.  When the fetch rejects, only the log changes. *)
Theorem setActiveChannel_across_await agent channel s :
  let l := nextLoc (cancel_recorded agent s) in
  ∃ k,
    advance (setActiveChannel agent channel) s
    = (Waiting (RestGet (Routes_channelMessages channel) 1) k,
       emit (EvCall (RestGet (Routes_channelMessages channel) 1))
         (upd_roomStates (insert agent l)
            (alloc (fresh_room channel) (cancel_recorded agent s)))) ∧
    (∀ e s2, advance (k (Throw e)) s2
             = (Done (Ok tt), emit (EvError "Error fetching channel messages:" e) s2)) ∧
    ∀ messages s2,
      let seeded := match messages with
                    | first :: _ =>
                        upd_heap (alter (set_lastMessageId (Some (msg_id first))) l) s2
                    | [] => s2
                    end in
      let s3 := upd_heap (alter (set_pollingInterval (Some (nextTimer s2))) l)
                  (install_timer agent seeded) in
      advance (k (Ok messages)) s2 = (Done (Ok tt), s3) ∧
      timers s3 = <[nextTimer s2 := (agent, POLLING_INTERVAL)]> (timers s2) ∧
      roomStates s3 = roomStates s2.
Proof.
  cbv zeta. unfold setActiveChannel.
  rewrite advance_bind, advance_get. cbv beta iota.
  rewrite advance_bind, advance_clear_polling. cbv beta iota.
  advance_all. eexists. split; [reflexivity|]. split.
  - intros e s2. cbv beta. by advance_all.
  - intros [|first rest] s2; cbv beta; advance_all; done.
Qed.

(** ** Invariants of every reachable manager *)

Section Keeps.

Variable I : St -> Prop.
Hypothesis I_frame : ∀ s s',
  agents s' = agents s -> messageHandlers s' = messageHandlers s ->
  currentDMChannel s' = currentDMChannel s -> rest_token s' = rest_token s ->
  I s -> I s'.
Hypothesis I_delete_agent : ∀ agent s, I s -> I (upd_agents (delete agent) s).
Hypothesis I_handlers : ∀ f s,
  (∀ hs, NoDup hs -> NoDup (f hs)) -> I s -> I (upd_messageHandlers f s).

Lemma keeps_bind {A B} (p : Proc A) (f : A -> Proc B) :
  keeps I p -> (∀ a, keeps I (f a)) -> keeps I (p ≫= f).
Proof.
  intros Hp Hf. induction p as [a|e|X m k IH|X c k IH]; cbn.
  - apply Hf.
  - done.
  - destruct Hp as [Hm Hk]. split; [done|]. intros x. by apply IH.
  - intros r. apply IH, Hp.
Qed.

Lemma keeps_try_catch {A} (p : Proc A) h :
  keeps I p -> (∀ e, keeps I (h e)) -> keeps I (try_catch p h).
Proof.
  intros Hp Hh. induction p as [a|e|X m k IH|X c k IH]; cbn.
  - done.
  - apply Hh.
  - destruct Hp as [Hm Hk]. split; [done|]. intros x. by apply IH.
  - intros r. apply IH, Hp.
Qed.

Lemma keeps_get {X : Set} (f : St -> X) : keeps I (get f).
Proof. by split. Qed.

Lemma keeps_modify f : (∀ s, I s -> I (f s)) -> keeps I (modify f).
Proof. by split. Qed.

Lemma keeps_sync {A} {X : Set} (m : St -> X * St) (k : X -> Proc A) :
  (∀ s, I s -> I (m s).2) -> (∀ x, keeps I (k x)) -> keeps I (Sync m k).
Proof. by split. Qed.

Lemma keeps_await {X : Set} (c : Call X) : keeps I (await c).
Proof. intros [x|e]; done. Qed.

Lemma keeps_for_each {X} (l : list X) body :
  (∀ x, keeps I (body x)) -> keeps I (for_each l body).
Proof.
  intros Hb. induction l as [|x l IH]; [done|].
  rewrite for_each_cons. by apply keeps_bind.
Qed.

Ltac keeps_tac :=
  repeat match goal with
    | |- keeps _ (Ret _) => exact Logic.I
    | |- keeps _ (Raise _) => exact Logic.I
    | |- keeps _ (_ ≫= _) => apply keeps_bind
    | |- keeps _ (try_catch _ _) => apply keeps_try_catch
    | |- keeps _ (get _) => apply keeps_get
    | |- keeps _ (await _) => apply keeps_await
    | |- keeps _ (for_each _ _) => apply keeps_for_each
    | |- keeps _ (modify _) =>
        apply keeps_modify; intros ? ?; eapply I_frame; [..|eassumption]; reflexivity
    | |- keeps _ (Sync _ _) =>
        apply keeps_sync; [intros ? ?; eapply I_frame; [..|eassumption]; reflexivity|]
    | |- keeps _ (match ?x with _ => _ end) => destruct x
    | |- ∀ _, _ => intro
    end.

Lemma keeps_pollMessages key : keeps I (pollMessages key).
Proof.
  unfold pollMessages, handleNewMessages, read, write, logger_error. keeps_tac.
Qed.

Lemma keeps_clear_polling state : keeps I (clear_polling state).
Proof. unfold clear_polling, read, clearInterval. keeps_tac. Qed.

Lemma keeps_setActiveChannel agent channel : keeps I (setActiveChannel agent channel).
Proof.
  unfold setActiveChannel, new_object, setInterval, write, logger_error.
  keeps_tac; try apply keeps_clear_polling; keeps_tac.
Qed.

Lemma keeps_sendMessage uuid agent content : keeps I (sendMessage uuid agent content).
Proof. unfold sendMessage, read, write, logger_error. keeps_tac. Qed.

Lemma keeps_cleanup agent : keeps I (cleanup agent).
Proof.
  unfold cleanup. keeps_tac; try apply keeps_clear_polling.
  - apply keeps_modify. intros s. apply I_delete_agent.
  - apply keeps_modify. intros s. apply I_handlers. intros hs _. constructor.
Qed.

Lemma keeps_serve uuid r : keeps I (serve uuid r).
Proof.
  destruct r; cbn [serve].
  - apply keeps_modify. intros s. apply I_handlers. intros hs Hhs.
    case_decide; [done|]. apply NoDup_app. split; [done|]. split.
    + intros h' Hin ->%list_elem_of_singleton. done.
    + apply NoDup_singleton.
  - apply keeps_modify. intros s. apply I_handlers. intros hs Hhs.
    by apply NoDup_filter.
  - apply keeps_setActiveChannel.
  - apply keeps_bind; [apply keeps_sendMessage|done].
  - apply keeps_cleanup.
Qed.

Lemma advance_keeps {A} (p : Proc A) s :
  keeps I p -> I s ->
  I (advance p s).2 ∧
  match (advance p s).1 with
  | Done _ => True
  | Waiting c k => ∀ r, keeps I (k r)
  end.
Proof.
  revert s. induction p as [a|e|X m k IH|X c k IH]; intros s Hp Hs; cbn.
  - done.
  - done.
  - destruct Hp as [Hm Hk]. specialize (Hm s Hs). destruct (m s) as [x s1].
    by apply IH.
  - split; [|done]. by apply (I_frame s).
Qed.

Lemma spawn_keeps p w :
  keeps I p -> I (mgr w) -> Forall (pending_keeps I) (inflight w) ->
  I (mgr (spawn p w)) ∧ Forall (pending_keeps I) (inflight (spawn p w)).
Proof.
  intros Hp Hs Hw. unfold spawn.
  destruct (advance_keeps p (mgr w) Hp Hs) as [HI Hk].
  destruct (advance p (mgr w)) as [[r|X c k] s']; cbn in *.
  - done.
  - split; [done|]. apply Forall_app_2; [done|]. by apply Forall_singleton.
Qed.

Lemma step_keeps uuid w w' :
  I (mgr w) -> Forall (pending_keeps I) (inflight w) ->
  step uuid w w' ->
  I (mgr w') ∧ Forall (pending_keeps I) (inflight w').
Proof.
  intros Hs Hw [a Ha]. destruct a as [r|t|i env|now]; cbn in Ha.
  - injection Ha as <-. apply spawn_keeps; [apply keeps_serve|done|done].
  - destruct (timers (mgr w) !! t) as [[key period]|]; [|done].
    injection Ha as <-. apply spawn_keeps; [apply keeps_pollMessages|done|done].
  - destruct (inflight w !! i) as [[X c k]|] eqn:Hi; [|done].
    injection Ha as <-.
    apply (spawn_keeps (k (env X c)) {| mgr := mgr w; inflight := delete i (inflight w) |}).
    + apply (Forall_lookup_1 _ _ _ _ Hw Hi).
    + done.
    + cbn. by apply Forall_delete.
  - case_decide; [|done]. injection Ha as <-. cbn. split; [|done].
    by apply (I_frame (mgr w)).
Qed.

Lemma steps_keep uuid w w' :
  I (mgr w) -> Forall (pending_keeps I) (inflight w) ->
  rtc (step uuid) w w' ->
  I (mgr w') ∧ Forall (pending_keeps I) (inflight w').
Proof.
  intros Hs Hw Hsteps. induction Hsteps as [w|w w1 w2 Hstep Hsteps IH]; [done|].
  destruct (step_keeps uuid w w1 Hs Hw Hstep) as [Hs1 Hw1]. by apply IH.
Qed.

End Keeps.

Lemma manager_inv_frame runtime s s' :
  agents s' = agents s -> messageHandlers s' = messageHandlers s ->
  currentDMChannel s' = currentDMChannel s -> rest_token s' = rest_token s ->
  manager_inv runtime s -> manager_inv runtime s'.
Proof. intros Ha Hh Hd Ht. unfold manager_inv. by rewrite Ha, Hh, Hd, Ht. Qed.

Lemma manager_inv_delete_agent runtime agent s :
  manager_inv runtime s -> manager_inv runtime (upd_agents (delete agent) s).
Proof.
  intros (Ha & Hrest). split; [|done]. intros a r. cbn. rewrite lookup_delete.
  case_decide; [done|apply Ha].
Qed.

Lemma manager_inv_handlers runtime f s :
  (∀ hs, NoDup hs -> NoDup (f hs)) ->
  manager_inv runtime s -> manager_inv runtime (upd_messageHandlers f s).
Proof. intros Hf (Ha & Hh & Hrest). split; [done|]. split; [by apply Hf|done]. Qed.

Lemma manager_inv_boot runtime : manager_inv runtime (mgr (boot runtime)).
Proof.
  destruct (boot_state runtime) as (_ & _ & _ & _ & Ha & Hdm).
  split; [|split; [|split]].
  - intros agent r. rewrite Ha.
    intros [[<- <-]|[_ H]]%lookup_insert_Some; done.
  - apply NoDup_nil_2.
  - done.
  - reflexivity.
Qed.

Lemma reachable_manager_inv uuid runtime w :
  reachable uuid runtime w -> manager_inv runtime (mgr w).
Proof.
  intros Hw.
  apply (steps_keep (manager_inv runtime) (manager_inv_frame runtime)
           (manager_inv_delete_agent runtime) (manager_inv_handlers runtime)
           uuid (boot runtime) w); [apply manager_inv_boot| |done].
  by rewrite boot_inflight.
Qed.

Section ReachableFacts.

Variable stringToUuid : string -> string.

(** X13: the registry never holds anything but the runtime the manager was
    constructed with: in every reachable world, [sendMessage] for any other
    agent identifier throws the not-found error and sends nothing. *)
Theorem only_the_constructing_agent_can_send runtime w agent (env : Env) content :
  reachable stringToUuid runtime w ->
  agent ≠ agentId runtime ->
  agents (mgr w) !! agent = None ∧
  run env (sendMessage stringToUuid agent content) (mgr w) = (Throw not_found, mgr w).
Proof.
  intros Hw Hne. destruct (reachable_manager_inv _ _ _ Hw) as (Ha & _).
  assert (Hnone : agents (mgr w) !! agent = None).
  { destruct (agents (mgr w) !! agent) as [r|] eqn:Hr; [|done].
    by destruct (Ha agent r Hr). }
  split; [done|]. by rewrite run_sendMessage, Hnone.
Qed.

(** X14: the default direct-message channel is set by the constructor and
    never unset, so in every reachable world a channel resolves for every
    agent identifier, and [sendMessage] throws the not-found error exactly
    when the agent is not in the registry. *)
Theorem reachable_send_fails_only_unregistered runtime w agent (env : Env) content :
  reachable stringToUuid runtime w ->
  is_Some (resolve_channel (mgr w) agent) ∧
  (run env (sendMessage stringToUuid agent content) (mgr w) = (Throw not_found, mgr w)
   ↔ agents (mgr w) !! agent = None).
Proof.
  intros Hw. destruct (reachable_manager_inv _ _ _ Hw) as (_ & _ & Hdm & _).
  assert (Hres : is_Some (resolve_channel (mgr w) agent)).
  { unfold resolve_channel, js_or. rewrite Hdm.
    destruct (truthy_opt (channelId <$> room (mgr w) agent)) eqn:Htr.
    - rewrite Htr. by destruct (channelId <$> room (mgr w) agent).
    - by eexists. }
  split; [done|]. split.
  - intros Hrun. destruct (agents (mgr w) !! agent) as [rt|] eqn:Hrt; [|done].
    destruct Hres as [ch Hch].
    destruct (sendMessage_posts stringToUuid env agent content (mgr w) rt ch Hrt Hch)
      as [rest Htrace].
    rewrite Hrun in Htrace. cbn [snd] in Htrace. symmetry in Htrace.
    by apply trace_grows in Htrace.
  - intros Hnone. by rewrite run_sendMessage, Hnone.
Qed.

End ReachableFacts.

Lemma after_overlap_reachable : reachable uuid_of agent1 after_overlap.
Proof.
  apply (perform_all_steps uuid_of overlapping_switches). vm_compute. reflexivity.
Qed.

Lemma only_the_constructing_agent_can_send_overlap :
  agents (mgr after_overlap) !! "agent2" = None ∧
  run (serving []) (sendMessage uuid_of "agent2" hello) (mgr after_overlap)
  = (Throw not_found, mgr after_overlap).
Proof.
  apply (only_the_constructing_agent_can_send uuid_of agent1 after_overlap "agent2"
           (serving []) hello).
  - exact after_overlap_reachable.
  - intros H. discriminate H.
Defined.

Lemma reachable_send_fails_only_unregistered_overlap :
  is_Some (resolve_channel (mgr after_overlap) "agent1") ∧
  (run (serving []) (sendMessage uuid_of "agent1" hello) (mgr after_overlap)
   = (Throw not_found, mgr after_overlap)
   ↔ agents (mgr after_overlap) !! "agent1" = None).
Proof.
  apply (reachable_send_fails_only_unregistered uuid_of agent1 after_overlap "agent1"
           (serving []) hello).
  exact after_overlap_reachable.
Defined.




(** X16: the token the constructor resolved does not reach the request of a
    poll tick.  Whatever token the REST client was given, a tick for a room
    with a channel sends one request, for that channel, and its
    Authorization header is [Bot undefined]. *)
Theorem poll_request_carries_no_token (env : Env) key l o s :
  roomStates s !! key = Some l ->
  heap s !! l = Some o ->
  truthy (channelId o) = true ->
  network_calls (trace (run env (pollMessages key) s).2)
  = network_calls (trace s) ++
    [EvCall (Fetch ("/api/discord/messages/" +:+ channelId o)
               [("Authorization", "Bot undefined"); ("Content-Type", "application/json")])].
Proof.
  intros Hl Ho Hch. destruct (run_pollMessages_trace env key l o s Hl Ho) as [_ Ht].
  by rewrite Ht, network_calls_app, network_calls_tick, Hch.
Qed.

Lemma poll_request_carries_no_token_booted :
  rest_token booted = "tok" ∧
  network_calls (trace (run (serving [msg1]) (pollMessages "dm") booted).2)
  = network_calls (trace booted) ++
    [EvCall (Fetch "/api/discord/messages/202880968556544000"
               [("Authorization", "Bot undefined"); ("Content-Type", "application/json")])].
Proof.
  split; [reflexivity|].
  apply (poll_request_carries_no_token (serving [msg1]) "dm" 0
           {| channelId := "202880968556544000"; lastMessageId := None;
              voiceConnection := None; pollingInterval := Some 1%positive |} booted);
    reflexivity.
Defined.

(** ** Construction, start and stop *)

(** X17: for every runtime the constructor completes without suspending and
    without throwing, and sends nothing.  It leaves the runtime registered
    under its agent identifier, the token resolved, the hard-coded channel
    as default direct-message channel, no handler, and one room, under the
    key dm, bound to that channel with no cursor and with the one active
    timer recorded in it; the channel already resolves for that agent. *)
Theorem constructor_initial_state (env : Env) runtime :
  let s0 := mgr (boot runtime) in
  run env (constructor runtime) fresh_host = (Ok tt, s0) ∧
  inflight (boot runtime) = [] ∧
  network_calls (trace s0) = [] ∧
  logged_errors (trace s0) = [] ∧
  agents s0 = <[agentId runtime := runtime]> ∅ ∧
  rest_token s0 = runtime_discord_token runtime ∧
  messageHandlers s0 = [] ∧
  room s0 "dm" = Some (set_pollingInterval (Some 1%positive)
                         (fresh_room "202880968556544000")) ∧
  timers s0 = <[1%positive := ("dm", POLLING_INTERVAL)]> ∅ ∧
  resolve_channel s0 (agentId runtime) = Some "202880968556544000".
Proof.
  cbv zeta. do 9 (split; [reflexivity|]).
  unfold resolve_channel, js_or, room.
  destruct (boot_state runtime) as (_ & Hr & Hh & _ & _ & Hdm). rewrite Hr, Hh, Hdm.
  destruct (decide (agentId runtime = "dm")) as [->|Hne].
  - reflexivity.
  - by rewrite lookup_insert_ne.
Qed.

(** X18: [stop] does not reach the manager [start] built: after [start] and
    [stop] the runtime is still registered, the timer of the direct-message
    room is still active and recorded, and its next tick still sends its
    request for the hard-coded channel, with the header [Bot undefined]; no
    handler is registered, so beyond the request the tick only logs a
    rejection of the fetch. *)
Theorem stop_leaves_the_manager_running (env env' : Env) runtime :
  let r := run env (client_start runtime;; client_stop runtime) fresh_host in
  r.1 = Ok tt ∧
  agents r.2 !! agentId runtime = Some runtime ∧
  timers r.2 !! 1%positive = Some ("dm", POLLING_INTERVAL) ∧
  recorded_timer r.2 "dm" = Some 1%positive ∧
  trace (run env' (pollMessages "dm") r.2).2
  = trace r.2 ++
    EvCall (Fetch "/api/discord/messages/202880968556544000"
              [("Authorization", "Bot undefined"); ("Content-Type", "application/json")]) ::
    match env' _ (Fetch "/api/discord/messages/202880968556544000"
                    [("Authorization", "Bot undefined");
                     ("Content-Type", "application/json")]) with
    | Ok _ => []
    | Throw e => [EvError "Error polling messages:" e]
    end.
Proof.
  cbv zeta.
  set (r := run env (client_start runtime;; client_stop runtime) fresh_host).
  assert (Hroom : roomStates r.2 !! "dm" = Some 0) by reflexivity.
  assert (Hobj : heap r.2 !! 0 = Some (set_pollingInterval (Some 1%positive)
                                         (fresh_room "202880968556544000")))
    by reflexivity.
  split; [reflexivity|]. split.
  { change (agents r.2) with (<[agentId runtime := runtime]> (∅ : gmap string IAgentRuntime)).
    apply lookup_insert_eq. }
  split; [reflexivity|]. split; [reflexivity|].
  destruct (run_pollMessages_trace env' "dm" 0 _ r.2 Hroom Hobj) as [_ Ht].
  rewrite Ht. f_equal.
  change (tick_events env' (rest_token_member r.2) (messageHandlers r.2)
            (channelId (set_pollingInterval (Some 1%positive)
                          (fresh_room "202880968556544000"))))
    with (tick_events env' None [] "202880968556544000").
  unfold tick_events. cbn [truthy].
  change (poll_url "202880968556544000") with "/api/discord/messages/202880968556544000".
  change (poll_headers None)
    with [("Authorization", "Bot undefined"); ("Content-Type", "application/json")].
  f_equal. destruct (env' _ (Fetch _ _)) as [batch|e]; [|done].
  unfold batch_events. induction (rev batch) as [|m ms IH]; [done|].
  change (flat_map ?f (m :: ms)) with (f m ++ flat_map f ms).
  rewrite IH. by destruct (msg_author_bot m).
Qed.

(** ** Timers of calls that do not overlap *)

Lemma sequential_well_formed uuid runtime s :
  rtc (seq_step uuid) (mgr (boot runtime)) s -> well_formed s.
Proof.
  intros Hsteps.
  apply (rtc_ind_r (R := seq_step uuid) (fun s => well_formed s) (mgr (boot runtime)));
    [apply well_formed_boot| |exact Hsteps].
  intros s0 s1 _ Hstep IH. destruct Hstep as [env r s0|env t key period s0 _|now s0].
  - by apply well_formed_serve.
  - by apply well_formed_pollMessages.
  - by apply (well_formed_frame s0).
Qed.

Lemma timers_for_spec s key t :
  t ∈ timers_for s key ↔ ∃ period, timers s !! t = Some (key, period).
Proof.
  unfold timers_for. rewrite list_elem_of_fmap. split.
  - intros ([t' [key' period]] & -> & Hin). apply list_elem_of_filter in Hin as [Hk Hin].
    cbn in Hk. subst key'. apply elem_of_map_to_list in Hin. by exists period.
  - intros [period Ht]. exists (t, (key, period)). split; [done|].
    apply list_elem_of_filter. split; [done|]. by apply elem_of_map_to_list.
Qed.

Lemma timers_for_NoDup s key : NoDup (timers_for s key).
Proof.
  unfold timers_for.
  assert (Hsub : sublist (filter (fun p : timer * (string * Z) => p.2.1 = key)
                            (map_to_list (timers s))).*1
                         (map_to_list (timers s)).*1).
  { apply fmap_sublist, sublist_filter. }
  apply (sublist_NoDup _ _ (NoDup_fst_map_to_list (timers s)) Hsub).
Qed.

Lemma NoDup_all_equal {A} (x : A) (l : list A) :
  NoDup l -> x ∈ l -> (∀ y, y ∈ l -> y = x) -> l = [x].
Proof.
  intros Hnd Hx Hall. destruct l as [|a l]; [by apply elem_of_nil in Hx|].
  assert (a = x) as -> by (apply Hall; left).
  destruct l as [|b l]; [done|].
  assert (b = x) as -> by (apply Hall; right; left).
  apply NoDup_cons in Hnd as [Hnotin _]. exfalso. apply Hnotin. left.
Qed.

(** X19: as long as no two calls overlap, every active timer is the one
    recorded in the room state of the key it polls, and it is the only
    active timer of that key: [setActiveChannel] and [cleanup] for that key
    will find it and clear it. *)
Theorem sequential_timer_is_recorded uuid runtime s t key period :
  rtc (seq_step uuid) (mgr (boot runtime)) s ->
  timers s !! t = Some (key, period) ->
  recorded_timer s key = Some t ∧ timers_for s key = [t].
Proof.
  intros Hsteps Ht. destruct (sequential_well_formed uuid runtime s Hsteps) as (HA & _).
  split; [by apply (HA t key period)|].
  apply NoDup_all_equal.
  - apply timers_for_NoDup.
  - apply timers_for_spec. by exists period.
  - intros t' [period' Ht']%timers_for_spec.
    apply HA in Ht. apply HA in Ht'. congruence.
Qed.

Lemma switched_twice_sequential :
  rtc (seq_step uuid_of) (mgr (boot agent1)) switched_twice.
Proof.
  unfold switched_twice.
  eapply rtc_l; [apply (seq_invoke uuid_of (serving [])
                          (ReqSetActiveChannel "agent1" "general"))|].
  eapply rtc_l; [apply (seq_invoke uuid_of (serving [])
                          (ReqSetActiveChannel "agent1" "random"))|].
  apply rtc_refl.
Qed.

Lemma sequential_timer_is_recorded_twice :
  recorded_timer switched_twice "agent1" = Some 3%positive ∧
  timers_for switched_twice "agent1" = [3%positive].
Proof.
  apply (sequential_timer_is_recorded uuid_of agent1 switched_twice 3%positive
           "agent1" POLLING_INTERVAL).
  - exact switched_twice_sequential.
  - reflexivity.
Defined.

(** ** Other rooms keep their timers *)

Lemma timers_for_empty s key : untimed key s -> timers_for s key = [].
Proof.
  intros Hun. destruct (timers_for s key) as [|t l] eqn:Hl; [done|].
  assert (Hin : t ∈ timers_for s key) by (rewrite Hl; left).
  apply timers_for_spec in Hin as [period Ht]. by apply Hun in Ht.
Qed.

(** X20: as long as no two calls overlap, [cleanup] does stop the polling of
    the agent's room: afterwards no active timer polls that key. *)
Theorem sequential_cleanup_stops_polling uuid runtime (env : Env) agent s :
  rtc (seq_step uuid) (mgr (boot runtime)) s ->
  timers_for (run env (cleanup agent) s).2 agent = [].
Proof.
  intros Hsteps. apply timers_for_empty. rewrite run_cleanup. cbn [snd].
  destruct (well_formed_cancel agent s (sequential_well_formed uuid runtime s Hsteps))
    as [_ Hun].
  intros t period. apply Hun.
Qed.

Lemma sequential_cleanup_stops_polling_twice :
  timers_for (run (serving []) (cleanup "agent1") switched_twice).2 "agent1" = [].
Proof.
  apply (sequential_cleanup_stops_polling uuid_of agent1 (serving []) "agent1"
           switched_twice).
  exact switched_twice_sequential.
Defined.

Lemma tidy_frame s s' :
  roomStates s' = roomStates s ->
  (∀ l, pollingInterval <$> heap s' !! l = pollingInterval <$> heap s !! l) ->
  timers s' = timers s ->
  nextLoc s' = nextLoc s ->
  nextTimer s' = nextTimer s ->
  tidy s -> tidy s'.
Proof.
  intros Hr Hh Ht Hn Hnt (Hwf & Hact & Hfresh). split; [|split].
  - by apply (well_formed_frame s).
  - intros key t. rewrite Ht, (recorded_timer_frame s s' Hr Hh). apply Hact.
  - intros t. rewrite Ht, Hnt. apply Hfresh.
Qed.

Lemma tidy_emits evs s : tidy s -> tidy (emits evs s).
Proof. by apply tidy_frame. Qed.

Lemma tidy_cursor v l s :
  tidy s -> tidy (upd_heap (alter (set_lastMessageId v) l) s).
Proof.
  apply tidy_frame; try done. intros l'. cbn. rewrite lookup_alter.
  case_decide; [subst|done]. by destruct (heap s !! l').
Qed.

(** What holds between the clearing of the recorded timer of [agent] and
    the replacement or removal of its room state. *)
Lemma tidy_cancel agent s :
  tidy s ->
  let s1 := cancel_recorded agent s in
  well_formed s1 ∧ untimed agent s1 ∧ handles_fresh s1 ∧
  nextTimer s1 = nextTimer s ∧
  (∀ key t, key ≠ agent -> recorded_timer s1 key = Some t ->
     ∃ period, timers s1 !! t = Some (key, period)) ∧
  (∀ key t period, key ≠ agent ->
     timers s !! t = Some (key, period) -> timers s1 !! t = Some (key, period)).
Proof.
  intros (Hwf & Hact & Hfresh) s1.
  destruct (well_formed_cancel agent s Hwf) as [Hwf1 Hun1].
  split; [done|]. split; [done|]. unfold s1, cancel_recorded.
  destruct (recorded_timer s agent) as [t0|] eqn:Hrec.
  - destruct (Hact agent t0 Hrec) as [p0 Ht0].
    assert (Hkeep : ∀ key t period, key ≠ agent ->
              timers s !! t = Some (key, period) ->
              timers (clear_timer t0 s) !! t = Some (key, period)).
    { intros key t period Hne Ht. cbn. rewrite lookup_delete_ne; [done|].
      intros <-. rewrite Ht0 in Ht. by injection Ht as <- _. }
    split; [|split; [done|split; [|done]]].
    + intros t [x Hx]. cbn in Hx. rewrite lookup_delete in Hx.
      case_decide; [done|]. apply Hfresh. by eexists.
    + intros key t Hne Hr. destruct (Hact key t Hr) as [period Ht].
      exists period. by apply Hkeep.
  - split; [done|]. split; [done|]. split; [|done].
    intros key t _. apply Hact.
Qed.

Lemma recorded_timer_rebind agent o s key :
  rooms_allocated s -> key ≠ agent ->
  recorded_timer (upd_roomStates (insert agent (nextLoc s)) (alloc o s)) key
  = recorded_timer s key.
Proof.
  intros HB Hne. unfold recorded_timer, room. cbn.
  rewrite lookup_insert_ne by done.
  destruct (roomStates s !! key) as [l|] eqn:Hl; cbn; [|done].
  apply HB in Hl. by rewrite lookup_insert_ne by lia.
Qed.

Lemma tidy_setActiveChannel env agent channel s :
  tidy s ->
  tidy (run env (setActiveChannel agent channel) s).2 ∧
  ∀ key t period, key ≠ agent ->
    timers s !! t = Some (key, period) ->
    timers (run env (setActiveChannel agent channel) s).2 !! t = Some (key, period).
Proof.
  intros Htidy. pose proof Htidy as (Hwf & Hact & Hfresh).
  destruct (tidy_cancel agent s Htidy) as (Hwf1 & Hun1 & Hfresh1 & Hnt1 & Hact1 & Hkeep1).
  pose proof (well_formed_setActiveChannel env agent channel s Hwf) as Hwf'.
  rewrite run_setActiveChannel in *. cbv zeta in *.
  set (s1 := cancel_recorded agent s) in *.
  set (s2 := upd_roomStates (insert agent (nextLoc s1)) (alloc (fresh_room channel) s1)) in *.
  assert (Hrec2 : ∀ key, key ≠ agent -> recorded_timer s2 key = recorded_timer s1 key).
  { intros key Hne. apply recorded_timer_rebind; [apply Hwf1|done]. }
  assert (Hrec2a : recorded_timer s2 agent = None).
  { unfold recorded_timer, room, s2. cbn. rewrite lookup_insert_eq. cbn.
    by rewrite lookup_insert_eq. }
  destruct (env _ (RestGet _ _)) as [messages|e]; cbn [snd] in *.
  - set (s3 := match messages with
               | [] => emit (EvCall (RestGet (Routes_channelMessages channel) 1)) s2
               | first :: _ =>
                   upd_heap (alter (set_lastMessageId (Some (msg_id first))) (nextLoc s1))
                     (emit (EvCall (RestGet (Routes_channelMessages channel) 1)) s2)
               end) in *.
    assert (Ht3 : timers s3 = timers s1) by (unfold s3; by destruct messages).
    assert (Hnt3 : nextTimer s3 = nextTimer s1) by (unfold s3; by destruct messages).
    assert (Hroom3 : roomStates s3 = roomStates s2) by (unfold s3; by destruct messages).
    assert (Hrec3 : ∀ key, recorded_timer s3 key = recorded_timer s2 key).
    { intros key. apply recorded_timer_frame; [done|]. intros l. unfold s3.
      destruct messages as [|first rest]; [done|].
      cbn [heap upd_heap emit emits]. rewrite lookup_alter.
      case_decide as Heq; [|done]. rewrite <- Heq.
      by destruct (heap s2 !! nextLoc s1). }
    assert (Hfresh_t : ∀ t, is_Some (timers s1 !! t) -> t ≠ nextTimer s1).
    { intros t Ht ->. apply Hfresh1 in Ht. lia. }
    split; [split; [done|split]|].
    + intros key t Hr.
      destruct (decide (key = agent)) as [->|Hne].
      * exists POLLING_INTERVAL. cbn. rewrite Ht3.
        assert (t = nextTimer s3) as ->.
        { unfold recorded_timer, room in Hr. cbn in Hr. rewrite Hroom3 in Hr.
          unfold s2 in Hr. cbn in Hr. rewrite lookup_insert_eq in Hr. cbn in Hr.
          rewrite lookup_alter_eq in Hr.
          destruct (heap s3 !! nextLoc s1); cbn in Hr; congruence. }
        apply lookup_insert_eq.
      * assert (Hr1 : recorded_timer s1 key = Some t).
        { rewrite <- Hrec2, <- Hrec3 by done. revert Hr.
          unfold recorded_timer, room. cbn. rewrite Hroom3.
          destruct (roomStates s2 !! key) as [l|] eqn:Hl; cbn; [|done].
          rewrite lookup_alter_ne; [done|]. intros <-.
          apply Hne. destruct Hwf' as (_ & _ & HC).
          apply (HC key agent (nextLoc s1)); cbn; rewrite Hroom3; [done|].
          unfold s2. cbn. apply lookup_insert_eq. }
        destruct (Hact1 key t Hne Hr1) as [period Ht]. exists period. cbn.
        rewrite Ht3, Hnt3, lookup_insert_ne; [done|].
        intros <-. by apply (Hfresh_t (nextTimer s1)).
    + intros t [x Hx]. cbn in *. rewrite Ht3, Hnt3 in *. rewrite lookup_insert in Hx.
      case_decide; [subst; lia|]. assert (t < nextTimer s1)%positive; [|lia].
      apply Hfresh1. by eexists.
    + intros key t period Hne Ht. cbn. rewrite Ht3, Hnt3.
      rewrite lookup_insert_ne; [by apply Hkeep1|].
      intros <-. apply (Hfresh_t (nextTimer s1)); [|done]. eexists. by apply Hkeep1.
  - split; [split; [done|split]|].
    + intros key t Hr. cbn.
      assert (Hr2 : recorded_timer s2 key = Some t) by exact Hr.
      destruct (decide (key = agent)) as [->|Hne]; [congruence|].
      rewrite Hrec2 in Hr2 by done. by apply Hact1.
    + intros t Ht. cbn in *. by apply Hfresh1.
    + intros key t period Hne Ht. cbn. by apply Hkeep1.
Qed.

Lemma tidy_cleanup env agent s :
  tidy s ->
  tidy (run env (cleanup agent) s).2 ∧
  ∀ key t period, key ≠ agent ->
    timers s !! t = Some (key, period) ->
    timers (run env (cleanup agent) s).2 !! t = Some (key, period).
Proof.
  intros Htidy. pose proof Htidy as (Hwf & _).
  destruct (tidy_cancel agent s Htidy) as (Hwf1 & Hun1 & Hfresh1 & Hnt1 & Hact1 & Hkeep1).
  pose proof (well_formed_cleanup env agent s Hwf) as Hwf'.
  rewrite run_cleanup in *. cbn [snd] in *.
  split; [split; [done|split]|].
  - intros key t Hr. cbn.
    destruct (decide (key = agent)) as [->|Hne].
    + unfold recorded_timer, room in Hr. cbn in Hr. by rewrite lookup_delete_eq in Hr.
    + apply Hact1; [done|]. revert Hr. unfold recorded_timer, room. cbn.
      by rewrite lookup_delete_ne.
  - intros t Ht. cbn in *. by apply Hfresh1.
  - intros key t period Hne Ht. cbn. by apply Hkeep1.
Qed.

Lemma tidy_pollMessages env key s : tidy s -> tidy (run env (pollMessages key) s).2.
Proof.
  intros Htidy. destruct (roomStates s !! key) as [l|] eqn:Hl.
  - destruct (heap s !! l) as [o|] eqn:Ho.
    + rewrite (run_pollMessages env key l o s Hl Ho).
      destruct (truthy (channelId o)); [|done].
      destruct (env _ (Fetch _ _)) as [[|first rest]|e]; cbn [snd].
      * by apply tidy_emits.
      * by apply tidy_emits, tidy_cursor, tidy_emits.
      * by apply tidy_emits, tidy_emits.
    + by rewrite (run_pollMessages_dangling env key l s Hl Ho).
  - by rewrite (run_pollMessages_no_room env key s Hl).
Qed.

Lemma tidy_sendMessage uuid env agent content s :
  tidy s -> tidy (run env (sendMessage uuid agent content) s).2.
Proof.
  intros Htidy. rewrite run_sendMessage.
  destruct (agents s !! agent) as [rt|]; [|done].
  destruct (resolve_channel s agent) as [ch|]; [|done]. cbv zeta.
  destruct (env _ (RestPost _ _)) as [response|e]; cbn [snd].
  - destruct (env _ (CreateMemory _ _)) as [[]|e]; cbn [snd].
    + destruct (roomStates s !! agent).
      * by apply tidy_cursor, tidy_emits, tidy_emits.
      * by apply tidy_emits, tidy_emits.
    + by apply tidy_emits, tidy_emits, tidy_emits.
  - by apply tidy_emits, tidy_emits.
Qed.

Lemma tidy_serve uuid env r s : tidy s -> tidy (run env (serve uuid r) s).2.
Proof.
  intros Htidy. destruct r; cbn [serve].
  - by apply (tidy_frame s).
  - by apply (tidy_frame s).
  - by apply tidy_setActiveChannel.
  - rewrite run_bind.
    pose proof (tidy_sendMessage uuid env agent content s Htidy) as H.
    by destruct (run env (sendMessage uuid agent content) s) as [[m|e] s'].
  - by apply tidy_cleanup.
Qed.

Lemma tidy_boot runtime : tidy (mgr (boot runtime)).
Proof.
  split; [apply well_formed_boot|].
  destruct (boot_state runtime) as (Ht & Hr & Hh & _).
  split.
  - intros key t. unfold recorded_timer, room. rewrite Ht, Hr, Hh.
    destruct (decide (key = "dm")) as [->|Hne].
    + rewrite lookup_insert_eq. cbn. rewrite lookup_insert_eq. cbn.
      intros [= <-]. eexists. apply lookup_insert_eq.
    + by rewrite lookup_insert_ne.
  - intros t. rewrite Ht. intros [x Hx].
    apply lookup_insert_Some in Hx as [[<- _]|[_ Hx]]; [|done].
    change (nextTimer (mgr (boot runtime))) with 2%positive. lia.
Qed.

Lemma sequential_tidy uuid runtime s :
  rtc (seq_step uuid) (mgr (boot runtime)) s -> tidy s.
Proof.
  intros Hsteps.
  apply (rtc_ind_r (R := seq_step uuid) (fun s => tidy s) (mgr (boot runtime)));
    [apply tidy_boot| |exact Hsteps].
  intros s0 s1 _ Hstep IH. destruct Hstep as [env r s0|env t key period s0 _|now s0].
  - by apply tidy_serve.
  - by apply tidy_pollMessages.
  - by apply (tidy_frame s0).
Qed.

(** X21: as long as no two calls overlap, [setActiveChannel] and [cleanup]
    for one agent never stop the polling of another room: every timer of
    another key that was active before the call is active after it. *)
Theorem sequential_calls_spare_other_timers uuid runtime (env : Env)
    agent channel s key t period :
  rtc (seq_step uuid) (mgr (boot runtime)) s ->
  key ≠ agent ->
  timers s !! t = Some (key, period) ->
  timers (run env (setActiveChannel agent channel) s).2 !! t = Some (key, period) ∧
  timers (run env (cleanup agent) s).2 !! t = Some (key, period).
Proof.
  intros Hsteps Hne Ht. pose proof (sequential_tidy uuid runtime s Hsteps) as Htidy.
  split.
  - by apply (tidy_setActiveChannel env agent channel s Htidy).
  - by apply (tidy_cleanup env agent s Htidy).
Qed.

Lemma sequential_calls_spare_other_timers_twice :
  timers (run offline (setActiveChannel "agent1" "general") switched_twice).2 !! 1%positive
    = Some ("dm", POLLING_INTERVAL) ∧
  timers (run offline (cleanup "agent1") switched_twice).2 !! 1%positive
    = Some ("dm", POLLING_INTERVAL).
Proof.
  apply (sequential_calls_spare_other_timers uuid_of agent1 offline "agent1" "general"
           switched_twice "dm" 1%positive POLLING_INTERVAL).
  - exact switched_twice_sequential.
  - intros H. discriminate H.
  - reflexivity.
Defined.
